(** * just-mr: repository closure, fetch driver and git-tree fetch map

    A shallow embedding of the parts of just-mr that decide which
    repositories are fetched ([ReachableRepositories], [MultiRepoFetch],
    [ReadLocation]) and of the compute function of the git-tree fetch map
    ([CreateGitTreeFetchMap]), followed by the properties proved about them. *)

From Stdlib Require Import String Ascii List Bool Arith ZArith Lia.
Import ListNotations.
Open Scope string_scope.
Open Scope list_scope.

(** String concatenation, as [fmt::format] splices its arguments. *)
Infix "+++" := String.append (right associativity, at level 60).

Set Implicit Arguments.
Set Warnings "-register-all".

(* ================================================================== *)
(** ** Outcomes of a C++ call *)

(** Modelled from the spec: exit_codes.hpp is missing from the sources; the
    spec fixes 0 for success and distinct non-zero codes for the failures. *)
Inductive ExitCode : Type :=
| kExitSuccess
| kExitGenericFailure
| kExitUnknownCommand
| kExitClargsError
| kExitConfigError
| kExitFetchError.

(** A call either returns, throws a C++ exception, leaves the process through
    [std::exit], runs into undefined behaviour, or (in the model only) runs
    out of recursion fuel. *)
Inductive Res (A : Type) : Type :=
| Ret (a : A)
| Throw (what : string)
| Exit (code : ExitCode)
| Undefined
| OutOfFuel.

Arguments Ret {A} a.
Arguments Throw {A} what.
Arguments Exit {A} code.
Arguments Undefined {A}.
Arguments OutOfFuel {A}.

Definition bind {A B : Type} (m : Res A) (k : A -> Res B) : Res B :=
  match m with
  | Ret a => k a
  | Throw w => Throw w
  | Exit c => Exit c
  | Undefined => Undefined
  | OutOfFuel => OutOfFuel
  end.

Notation "x <- m ;; k" := (bind m (fun x => k))
  (at level 61, m at next level, right associativity).

(** A range-based [for] loop whose body updates a piece of state. *)
Fixpoint for_each {A S : Type} (l : list A) (s : S) (body : A -> S -> Res S)
  : Res S :=
  match l with
  | [] => Ret s
  | x :: r => s' <- body x s ;; for_each r s' body
  end.

(* ================================================================== *)
(** ** Expressions *)

(** Modelled from the spec: expression.hpp and expression_ptr.hpp are missing
    from the sources.  An expression is a JSON-like value; a map is kept as
    the list of its entries in iteration order.  The payload of a number is
    never inspected by the code below. *)
Inductive Expression : Type :=
| ENone
| EBool (b : bool)
| ENumber (n : Z)
| EString (s : string)
| EList (l : list Expression)
| EMap (m : list (string * Expression)).

Definition IsNotNull (e : Expression) : bool :=
  match e with ENone => false | _ => true end.

Definition IsMap (e : Expression) : bool :=
  match e with EMap _ => true | _ => false end.

Definition IsString (e : Expression) : bool :=
  match e with EString _ => true | _ => false end.

(** Lookup in the entries of a map; nothing below relies on the keys being
    sorted or unique. *)
Fixpoint Find (m : list (string * Expression)) (key : string)
  : option Expression :=
  match m with
  | [] => None
  | (k, v) :: r => if String.eqb k key then Some v else Find r key
  end.

(** [e->Map()]: a type error is thrown on anything but a map. *)
Definition Map (e : Expression) : Res (list (string * Expression)) :=
  match e with
  | EMap m => Ret m
  | _ => Throw "ExpressionTypeError: expected map"
  end.

(** [e->String()]. *)
Definition StringOf (e : Expression) : Res string :=
  match e with
  | EString s => Ret s
  | _ => Throw "ExpressionTypeError: expected string"
  end.

(** [e->At(key)]. *)
Definition At (e : Expression) (key : string) : Res (option Expression) :=
  m <- Map e ;; Ret (Find m key).

(** [e->Get(key, Expression::none_t{})]. *)
Definition Get (e : Expression) (key : string) : Res Expression :=
  v <- At e key ;;
  match v with
  | Some x => Ret x
  | None => Ret ENone
  end.

Definition Keys (m : list (string * Expression)) : list string := map fst m.
Definition Values (m : list (string * Expression)) : list Expression :=
  map snd m.

(* ================================================================== *)
(** ** The repository closure *)

Definition kAltDirs : list string :=
  ["target_root"; "rule_root"; "expression_root"].

Record SetupRepos : Type := mkSetupRepos {
  to_setup : list string;
  to_include : list string
}.

(** [std::find(v.begin(), v.end(), x) != v.end()]. *)
Definition contains (v : list string) (x : string) : bool :=
  existsb (String.eqb x) v.

(** The recursive lambda [traverse] of [ReachableRepositories]; the vector
    [setup_repos->to_include] it captures by reference is threaded through. *)
Fixpoint traverse (fuel : nat) (repos : Expression) (repo_name : string)
  (to_include : list string) : Res (list string) :=
  match fuel with
  | O => OutOfFuel
  | S fuel' =>
    if contains to_include repo_name then Ret to_include
    else
      let to_include := to_include ++ [repo_name] in
      repos_repo_name <- Get repos repo_name ;;
      if negb (IsNotNull repos_repo_name) then Ret to_include
      else
        bindings <- Get repos_repo_name "bindings" ;;
        if IsNotNull bindings && IsMap bindings then
          bm <- Map bindings ;;
          for_each (Values bm) to_include
            (fun bound inc =>
               if IsNotNull bound && IsString bound then
                 s <- StringOf bound ;; traverse fuel' repos s inc
               else Ret inc)
        else Ret to_include
  end.

(** The loop "Add overlay repositories": body for one layer of one
    repository, and for one repository. *)
Definition add_layer (repos_repo : Expression) (layer : string)
  (to_setup : list string) : Res (list string) :=
  layer_val <- Get repos_repo layer ;;
  if IsNotNull layer_val && IsString layer_val then
    s <- StringOf layer_val ;; Ret (to_setup ++ [s])
  else Ret to_setup.

Definition add_overlays (repos : Expression) (repo : string)
  (to_setup : list string) : Res (list string) :=
  repos_repo <- Get repos repo ;;
  if IsNotNull repos_repo then
    for_each kAltDirs to_setup (add_layer repos_repo)
  else Ret to_setup.

(** The recursion of [traverse] is bounded by the number of entries of
    [repos]: one more call than entries is never reached (see
    [traverse_fuel_enough] and [traverse_fuel_mono]). *)
Definition traverse_fuel (repos : Expression) : nat :=
  match repos with
  | EMap m => S (List.length m)
  | _ => 1
  end.

Definition ReachableRepositories (repos : Expression) (main : string)
  (setup_repos : SetupRepos) : Res SetupRepos :=
  (* make sure the vectors to be populated are empty *)
  let setup_repos := mkSetupRepos [] [] in
  if IsMap repos then
    incl <- traverse (traverse_fuel repos) repos main
              (to_include setup_repos) ;;
    stp <- for_each incl incl (add_overlays repos) ;;
    Ret (mkSetupRepos stp incl)
  else Ret setup_repos.

Definition DefaultReachableRepositories (repos : Expression)
  (setup_repos : SetupRepos) : Res SetupRepos :=
  if IsNotNull repos && IsMap repos then
    m <- Map repos ;;
    Ret (mkSetupRepos (Keys m) (Keys m))
  else Ret setup_repos.

(* ================================================================== *)
(** ** JSON values and locations *)

(** A [nlohmann::json] value; an object is the list of its members. *)
Inductive Json : Type :=
| JNull
| JBool (b : bool)
| JNumber (n : Z)
| JString (s : string)
| JArray (l : list Json)
| JObject (m : list (string * Json)).

(** Modelled from the spec: [Expression::FromJson] is missing from the
    sources; it maps a JSON value to the expression of the same shape. *)
Fixpoint FromJson (j : Json) : Expression :=
  match j with
  | JNull => ENone
  | JBool b => EBool b
  | JNumber n => ENumber n
  | JString s => EString s
  | JArray l => EList (List.map FromJson l)
  | JObject m => EMap (List.map (fun kv => (fst kv, FromJson (snd kv))) m)
  end.

Fixpoint json_find (m : list (string * Json)) (key : string) : option Json :=
  match m with
  | [] => None
  | (k, v) :: r => if String.eqb k key then Some v else json_find r key
  end.

(** [j.contains(key)]: false on anything but an object. *)
Definition json_contains (j : Json) (key : string) : bool :=
  match j with
  | JObject m => match json_find m key with Some _ => true | None => false end
  | _ => false
  end.

(** [j[key]] on a constant value: defined only for a member that exists. *)
Definition json_at (j : Json) (key : string) : Res Json :=
  match j with
  | JObject m =>
      match json_find m key with Some v => Ret v | None => Undefined end
  | _ => Throw "json::type_error: cannot use operator[] with a string argument"
  end.

(** [j.get<std::string>()]. *)
Definition json_get_string (j : Json) : Res string :=
  match j with
  | JString s => Ret s
  | _ => Throw "json::type_error: type must be string"
  end.

Definition path : Type := string.

(** The file-system and path operations of the standard library and of
    [FileSystemManager] and [LocalExecutionConfig] that the code calls. *)
Record FileSystem : Type := mkFileSystem {
  path_append : path -> path -> path;          (* operator/ *)
  absolute : path -> path;
  weakly_canonical : path -> path;
  proximate : path -> path -> path;
  lexically_normal : path -> path;
  is_absolute : path -> bool;
  IsDirectory : path -> bool;
  CreateDirectory : path -> bool;
  GetUserHome : path;
  CurrentRootPath : path     (* GetCurrentDirectory().root_path() *)
}.

(** Modelled from the spec: the table [kLocationTypes] is missing from the
    sources; the spec lists the roots "workspace", "home" and "system". *)
Definition kLocationTypes : list string := ["workspace"; "home"; "system"].

Definition canonical_pair (fs : FileSystem) (root_path p b : path)
  : path * path :=
  (weakly_canonical fs (absolute fs (path_append fs root_path p)),
   weakly_canonical fs (absolute fs (path_append fs root_path b))).

(** The part of both overloads of [ReadLocation] that picks the root path;
    [None] is the early [return std::nullopt] of a workspace location outside
    of a workspace. *)
Definition select_root_path (fs : FileSystem) (root : string)
  (ws_root : option path) : option path :=
  let root_path : option path :=
    if String.eqb root "workspace" then ws_root else Some EmptyString in
  match root_path with
  | None => None
  | Some root_path =>
      let root_path :=
        if String.eqb root "home" then GetUserHome fs else root_path in
      let root_path :=
        if String.eqb root "system" then CurrentRootPath fs else root_path in
      Some root_path
  end.

(** [ReadLocation(nlohmann::json const&, ...)]. *)
Definition ReadLocation_json (fs : FileSystem) (location : Json)
  (ws_root : option path) : Res (option (path * path)) :=
  if negb (json_contains location "path")
     || negb (json_contains location "root") then
    Exit kExitConfigError
  else
    root <- (r <- json_at location "root" ;; json_get_string r) ;;
    p <- (r <- json_at location "path" ;; json_get_string r) ;;
    base <- (if json_contains location "base"
             then r <- json_at location "base" ;; json_get_string r
             else Ret ".") ;;
    match select_root_path fs root ws_root with
    | None => Ret None
    | Some root_path => Ret (Some (canonical_pair fs root_path p base))
    end.

(** [ReadLocation(ExpressionPtr const&, ...)]. *)
Definition ReadLocation (fs : FileSystem) (location : Expression)
  (ws_root : option path) : Res (option (path * path)) :=
  if IsNotNull location then
    root <- Get location "root" ;;
    p <- Get location "path" ;;
    base <- (b <- At location "base" ;;
             Ret (match b with Some x => x | None => EString "." end)) ;;
    malformed <-
      (if negb (IsNotNull p) then Ret true
       else if negb (IsNotNull root) then Ret true
       else s <- StringOf root ;; Ret (negb (contains kLocationTypes s))) ;;
    if malformed then Exit kExitConfigError
    else
      root_str <- StringOf root ;;
      match select_root_path fs root_str ws_root with
      | None => Ret None
      | Some root_path =>
          ps <- StringOf p ;;
          bs <- StringOf base ;;
          Ret (Some (canonical_pair fs root_path ps bs))
      end
  else Ret None.

(* ================================================================== *)
(** ** The fetch subcommand *)

Inductive SubCommand : Type :=
| kUnknown | kFetch | kUpdate | kSetup | kSetupEnv | kJustDo | kJustSubCmd.

(** The fields of the argument structures (cli.hpp) that the code reads. *)
Record MultiRepoCommonPaths : Type := mkPaths {
  setup_root : path;
  workspace_root : option path;
  distdirs : list path
}.

Record MultiRepoCommonArguments : Type := mkCommon {
  just_mr_paths : MultiRepoCommonPaths;
  main : option string;
  jobs : nat
}.

Record MultiRepoSetupArguments : Type := mkSetupArgs {
  sub_main : option string;
  sub_all : bool
}.

Record MultiRepoFetchArguments : Type := mkFetchArgs {
  fetch_dir : option path
}.

Record CommandLineArguments : Type := mkArgs {
  cmd : SubCommand;
  common : MultiRepoCommonArguments;
  setup : MultiRepoSetupArguments;
  fetch : MultiRepoFetchArguments
}.

Inductive CheckoutType : Type := Git | Archive | File | Distdir | GitTree.

Record ArchiveContent : Type := mkArchiveContent {
  content : string;
  distfile : string;
  fetch_url : string;
  sha256 : string;
  sha512 : string
}.

Record ArchiveRepoInfo : Type := mkArchiveRepoInfo {
  archive : ArchiveContent;
  repo_type : string;
  subdir : string
}.

(** Modelled from the spec: async_map_consumer.hpp is missing from the
    sources.  A key of an async map ends up ready with a value or failed with
    a message and a fatal flag (spec, section 4.1). *)
Inductive KeyOutcome (V : Type) : Type :=
| KeyReady (v : V)
| KeyFailed (msg : string) (fatal : bool).

Arguments KeyReady {V} v.
Arguments KeyFailed {V} msg fatal.

(** The helpers of the repository that [MultiRepoFetch] calls and whose code
    is not part of the sources. *)
Record FetchDeps : Type := mkFetchDeps {
  ResolveRepo : Expression -> Expression -> option Expression;
  kCheckoutTypeMap : string -> option CheckoutType;
  repo_fetch : ArchiveRepoInfo -> KeyOutcome bool
}.

(** [std::min_element] over strings ordered by [operator<]. *)
Definition min_element (l : list string) : option string :=
  match l with
  | [] => None
  | x :: r =>
      Some (fold_left (fun smallest y =>
                         if String.ltb y smallest then y else smallest) r x)
  end.

(** "find fetch dir". *)
Definition find_fetch_dir (fs : FileSystem) (arguments : CommandLineArguments)
  : option path :=
  match fetch_dir (fetch arguments) with
  | Some d => Some d
  | None =>
      match find (IsDirectory fs) (distdirs (just_mr_paths (common arguments)))
      with
      | Some d => Some (weakly_canonical fs (absolute fs d))
      | None => None
      end
  end.

(** The main repository that [MultiRepoFetch] hands to
    [ReachableRepositories]. *)
Definition select_main (arguments : CommandLineArguments)
  (fetch_repos : SetupRepos) : option string :=
  match main (common arguments) with
  | Some m => Some m
  | None =>
      match to_include fetch_repos with
      | [] => None
      | _ => min_element (to_include fetch_repos)
      end
  end.

Definition is_subpath (fs : FileSystem) (p base : path) : bool :=
  String.eqb (proximate fs p base) base.

(** "warn if fetch_dir is in invocation workspace": only the accesses that
    can fail are kept, the warning itself has no effect on the result. *)
Definition workspace_warning (fs : FileSystem) (repos : Expression)
  (main : option string) (arguments : CommandLineArguments) (fetch_dir : path)
  : Res unit :=
  match workspace_root (just_mr_paths (common arguments)) with
  | Some ws =>
      if is_subpath fs fetch_dir ws then
        match main with
        | None => Undefined
        | Some m =>
            repo_desc <- Get repos m ;;
            repo <- Get repo_desc "repository" ;;
            repo_path <- Get repo "path" ;;
            repo_type <- Get repo "type" ;;
            Ret tt
        end
      else Ret tt
  | None => Ret tt
  end.

(** Lines 516-569: the repositories to fetch. *)
Definition fetch_closure (fs : FileSystem) (repos : Expression)
  (arguments : CommandLineArguments) (fetch_dir : path) : Res SetupRepos :=
  fetch_repos <- DefaultReachableRepositories repos (mkSetupRepos [] []) ;;
  if negb (sub_all (setup arguments)) then
    let main := select_main arguments fetch_repos in
    fetch_repos <- match main with
                   | Some m => ReachableRepositories repos m fetch_repos
                   | None => Ret fetch_repos
                   end ;;
    _ <- workspace_warning fs repos main arguments fetch_dir ;;
    Ret fetch_repos
  else Ret fetch_repos.

Definition string_or_empty (e : Expression) : string :=
  match e with EString s => s | _ => EmptyString end.

(** Body of the loop "gather all repos to be fetched" for one repository:
    [inl code] is [return code], [inr None] leaves the list unchanged and
    [inr (Some a)] appends [a]. *)
Definition gather_repo (fs : FileSystem) (deps : FetchDeps)
  (repos : Expression) (repo_name : string)
  : Res (ExitCode + option ArchiveRepoInfo) :=
  repo_desc <- At repos repo_name ;;
  match repo_desc with
  | None => Ret (inl kExitFetchError)
  | Some repo_desc =>
    repo <- At repo_desc "repository" ;;
    match repo with
    | None => Ret (inl kExitFetchError)
    | Some repo =>
      match ResolveRepo deps repo repos with
      | None => Ret (inl kExitFetchError)
      | Some resolved_repo_desc =>
        repo_type <- At resolved_repo_desc "type" ;;
        match repo_type with
        | None => Ret (inl kExitFetchError)
        | Some repo_type =>
          if negb (IsString repo_type) then Ret (inl kExitFetchError)
          else
            repo_type_str <- StringOf repo_type ;;
            match kCheckoutTypeMap deps repo_type_str with
            | None => Ret (inl kExitFetchError)
            | Some Archive =>
              repo_desc_content <- At resolved_repo_desc "content" ;;
              match repo_desc_content with
              | None => Ret (inl kExitFetchError)
              | Some repo_desc_content =>
                if negb (IsString repo_desc_content)
                then Ret (inl kExitFetchError)
                else
                  repo_desc_fetch <- At resolved_repo_desc "fetch" ;;
                  match repo_desc_fetch with
                  | None => Ret (inl kExitFetchError)
                  | Some repo_desc_fetch =>
                    if negb (IsString repo_desc_fetch)
                    then Ret (inl kExitFetchError)
                    else
                      repo_desc_subdir <- Get resolved_repo_desc "subdir" ;;
                      let subdir :=
                        lexically_normal fs
                          (string_or_empty repo_desc_subdir) in
                      repo_desc_distfile <-
                        Get resolved_repo_desc "distfile" ;;
                      repo_desc_sha256 <- Get resolved_repo_desc "sha256" ;;
                      repo_desc_sha512 <- Get resolved_repo_desc "sha512" ;;
                      content_str <- StringOf repo_desc_content ;;
                      fetch_str <- StringOf repo_desc_fetch ;;
                      Ret (inr (Some
                        (mkArchiveRepoInfo
                           (mkArchiveContent
                              content_str
                              (string_or_empty repo_desc_distfile)
                              fetch_str
                              (string_or_empty repo_desc_sha256)
                              (string_or_empty repo_desc_sha512))
                           repo_type_str
                           (if String.eqb subdir EmptyString
                            then "." else subdir))))
                  end
              end
            | Some _ => Ret (inr None)
            end
        end
      end
    end
  end.

Fixpoint gather_repos (fs : FileSystem) (deps : FetchDeps)
  (repos : Expression) (names : list string)
  (repos_to_fetch : list ArchiveRepoInfo)
  : Res (ExitCode + list ArchiveRepoInfo) :=
  match names with
  | [] => Ret (inr repos_to_fetch)
  | repo_name :: rest =>
      r <- gather_repo fs deps repos repo_name ;;
      match r with
      | inl code => Ret (inl code)
      | inr None => gather_repos fs deps repos rest repos_to_fetch
      | inr (Some a) =>
          gather_repos fs deps repos rest (repos_to_fetch ++ [a])
      end
  end.

(** Modelled from the spec: [ConsumeAfterKeysReady] of the missing
    async_map_consumer.hpp, with the two continuations that [MultiRepoFetch]
    passes.  When every key is ready the consumer sets [failed] if some value
    is false; otherwise the logger is called for the failed keys and [failed]
    becomes the disjunction of their fatal flags.  The result is [failed]. *)
Definition is_ready (o : KeyOutcome bool) : bool :=
  match o with KeyReady _ => true | KeyFailed _ _ => false end.

Definition fetch_failed (outcomes : list (KeyOutcome bool)) : bool :=
  if forallb is_ready outcomes then
    existsb (fun o => match o with KeyReady v => negb v | _ => false end)
      outcomes
  else
    existsb (fun o => match o with KeyFailed _ fatal => fatal | _ => false end)
      outcomes.

Definition MultiRepoFetch (fs : FileSystem) (deps : FetchDeps)
  (config : Expression) (arguments : CommandLineArguments) : Res ExitCode :=
  match find_fetch_dir fs arguments with
  | None => Ret kExitFetchError
  | Some fetch_dir =>
    repos <- Get config "repositories" ;;
    if negb (IsNotNull repos) then Ret kExitFetchError
    else
      fetch_repos <- fetch_closure fs repos arguments fetch_dir ;;
      if negb (CreateDirectory fs fetch_dir) then Ret kExitFetchError
      else
        gathered <- gather_repos fs deps repos (to_include fetch_repos) [] ;;
        match gathered with
        | inl code => Ret code
        | inr repos_to_fetch =>
            if fetch_failed (List.map (repo_fetch deps) repos_to_fetch)
            then Ret kExitFetchError
            else Ret kExitSuccess
        end
  end.

(** The end of [main], from "check for conflicts in main repo name" on: the
    setup arguments override the main repository, the subcommand is run, and
    an exception that escapes becomes the generic failure code. *)
Definition override_main (arguments : CommandLineArguments)
  : CommandLineArguments :=
  match sub_main (setup arguments) with
  | Some m =>
      mkArgs (cmd arguments)
             (mkCommon (just_mr_paths (common arguments)) (Some m)
                       (jobs (common arguments)))
             (setup arguments) (fetch arguments)
  | None => arguments
  end.

Definition run_subcommand (fs : FileSystem) (deps : FetchDeps)
  (config : Expression) (arguments : CommandLineArguments) : Res ExitCode :=
  let arguments := override_main arguments in
  let r :=
    match cmd arguments with
    | kJustDo | kJustSubCmd => Ret kExitSuccess
    | kSetup | kSetupEnv => Ret kExitSuccess
    | kUpdate => Ret kExitSuccess
    | kFetch => MultiRepoFetch fs deps config arguments
    | kUnknown => Ret kExitUnknownCommand
    end in
  match r with
  | Throw _ => Ret kExitGenericFailure
  | other => other
  end.

(* ================================================================== *)
(** ** The git-tree fetch map *)

Definition nl : string := String (ascii_of_nat 10) EmptyString.

(** The key of the map. *)
Record GitTreeInfo : Type := mkGitTreeInfo {
  hash : string;
  env_vars : list (string * string);
  inherit_env : list string;
  command : list string;
  origin : string
}.

Inductive GitOpType : Type :=
| ENSURE_INIT | INITIAL_COMMIT | KEEP_TAG | GET_HEAD_ID | BRANCH_REF.

Record GitOpParams : Type := mkGitOpParams {
  target_path : path;
  git_hash : string;
  branch : string;
  message : option string;
  init_bare : option bool
}.

Record GitOpKey : Type := mkGitOpKey {
  params : GitOpParams;
  op_type : GitOpType
}.

(** A handle on an object database; the null pointer is [None]. *)
Definition GitCASPtr : Type := option path.

Record GitOpValue : Type := mkGitOpValue {
  git_cas : GitCASPtr;
  result : option string
}.

Record ArtifactDigest : Type := mkDigest {
  digest_hash : string;
  digest_size : nat;
  is_tree : bool
}.

Inductive ObjectType : Type := OT_File | OT_Executable | OT_Tree.

Record ObjectInfo : Type := mkObjectInfo {
  digest : ArtifactDigest;
  type : ObjectType
}.

Record CommitInfo : Type := mkCommitInfo {
  commit_target_path : path;
  commit_repo_type : string;
  commit_content : string
}.

(** The interface of an execution API, as far as it is called. *)
Record IExecutionApi : Type := mkApi {
  IsAvailable : ArtifactDigest -> bool;
  RetrieveToCas : list ObjectInfo -> bool;
  RetrieveToPaths : list ObjectInfo -> list path -> bool
}.

Record ExecOutput : Type := mkExecOutput {
  return_value : Z;
  stdout_file : path;
  stderr_file : path
}.

(** What the map did, in order: the requests to other maps, the calls of the
    Git, file-system, execution-API and process collaborators, of the
    progress tracker, of the logger and of the setter. *)
Inductive Event : Type :=
| CriticalGitOp (key : GitOpKey)
| OpenRepo (cas : GitCASPtr)
| CheckTreeExists (cas : GitCASPtr) (tree_id : string)
| TrackerStart (origin : string)
| TrackerStop (origin : string)
| RemoteIsAvailable (d : ArtifactDigest)
| RemoteRetrieveToCas (infos : list ObjectInfo)
| CreateTypedTmpDir (type : string)
| LocalRetrieveToPaths (infos : list ObjectInfo) (paths : list path)
| ImportToGit (c : CommitInfo)
| Execute (cmdline : list string) (env : list (string * string))
          (cwd out_dir : path)
| ReadFile (file : path)
| FetchViaTmpRepo (tmp_repo : path) (source : path)
| Log (msg : string) (fatal : bool)
| SetValue (cache_hit : bool).

(** Modelled from the spec: [CheckTreeExists] and [FetchViaTmpRepo] of the
    missing git_repo_remote.hpp.  A check yields presence, or no value after
    having reported an error to its logger (fatally); a fetch succeeds or
    reports an error to its logger and yields false. *)
Inductive CheckOutcome : Type :=
| CheckOk (present : bool)
| CheckError (msg : string).

Inductive FetchOutcome : Type :=
| FetchOk
| FetchError (msg : string).

(** The answers of the collaborators, one per call site of the compute
    function (each call site is passed at most once for a key). *)
Record World : Type := mkWorld {
  w_ensure_init : KeyOutcome GitOpValue;
  w_open_cache : bool;
  w_check_cache : CheckOutcome;
  w_tmp_remote : option path;
  w_import_to_git : KeyOutcome (string * GitCASPtr);
  w_tmp_dir : option path;
  w_out_dir : option path;
  w_getenv : string -> option string;
  w_execute : option ExecOutput;
  w_initial_commit : KeyOutcome GitOpValue;
  w_open_tmp : bool;
  w_check_tmp : CheckOutcome;
  w_read_file : path -> option string;
  w_open_just : bool;
  w_tmp_fetch : option path;
  w_fetch_via_tmp_repo : FetchOutcome;
  w_keep_tag : KeyOutcome GitOpValue
}.

(** The values captured by the compute function. *)
Record MapConfig : Type := mkMapConfig {
  GitRoot : path;                        (* StorageConfig::GitRoot() *)
  git_bin : string;
  launcher : list string;
  local_api : option IExecutionApi;      (* a nullable pointer *)
  remote_api : option IExecutionApi
}.

(** A run of the compute function: the events so far and, unless the
    function has returned, a value to continue with. *)
Definition Proc (A : Type) : Type := (list Event * option A)%type.

Definition pure {A : Type} (a : A) : Proc A := ([], Some a).
Definition stop {A : Type} : Proc A := ([], None).
Definition call {A : Type} (e : Event) (answer : A) : Proc A :=
  ([e], Some answer).
Definition emit (e : Event) : Proc unit := call e tt.

Definition pbind {A B : Type} (m : Proc A) (k : A -> Proc B) : Proc B :=
  match m with
  | (t, None) => (t, None)
  | (t, Some a) => let (t', r) := k a in (t ++ t', r)
  end.

Notation "x <~ m ;; k" := (pbind m (fun x => k))
  (at level 61, m at next level, right associativity).
Notation "m ;;; k" := (pbind m (fun _ => k))
  (at level 61, right associativity).

(** A call of the logger followed by [return]. *)
Definition fail (msg : string) (fatal : bool) : Proc unit :=
  emit (Log msg fatal) ;;; stop.

(** [map->ConsumeAfterKeysReady(ts, {key}, consumer, logger)] for one key
    (spec, section 4.1). *)
Definition ConsumeAfterKeysReady {V : Type} (request : Event)
  (outcome : KeyOutcome V) (consumer : V -> Proc unit)
  (logger : string -> bool -> Proc unit) : Proc unit :=
  emit request ;;;
  match outcome with
  | KeyReady v => consumer v
  | KeyFailed msg fatal => logger msg fatal
  end.

Definition check_tree_exists (cas : GitCASPtr) (tree_id : string)
  (outcome : CheckOutcome) (wrap : string -> string) : Proc (option bool) :=
  emit (CheckTreeExists cas tree_id) ;;;
  match outcome with
  | CheckOk b => pure (Some b)
  | CheckError msg => emit (Log (wrap msg) true) ;;; pure None
  end.

Definition fetch_via_tmp_repo (tmp_repo source : path)
  (outcome : FetchOutcome) (wrap : string -> string) : Proc bool :=
  emit (FetchViaTmpRepo tmp_repo source) ;;;
  match outcome with
  | FetchOk => pure true
  | FetchError msg => emit (Log (wrap msg) true) ;;; pure false
  end.

(** [env[k] = v] on a [std::map], kept sorted by key. *)
Fixpoint map_assign (m : list (string * string)) (k v : string)
  : list (string * string) :=
  match m with
  | [] => [(k, v)]
  | (k', v') :: r =>
      if String.eqb k k' then (k, v) :: r
      else if String.ltb k k' then (k, v) :: (k', v') :: r
      else (k', v') :: map_assign r k v
  end.

(** The loop over [key.inherit_env]: a name that is set in the ambient
    environment, read through [std::getenv], is assigned in [env]. *)
Definition inherit (getenv : string -> option string) (names : list string)
  (env : list (string * string)) : list (string * string) :=
  fold_left (fun env k =>
               match getenv k with
               | Some v => map_assign env k v
               | None => env
               end)
            names env.

Definition string_empty (s : string) : bool :=
  match s with EmptyString => true | _ => false end.

Definition value_or_empty (s : option string) : string :=
  match s with Some x => x | None => EmptyString end.

(** The message of the failed verification (lines 260-286). *)
Definition mismatch_message (dump : list string -> string)
  (cmdline : list string) (tree_id : string) (cmd_out cmd_err : option string)
  : string :=
  let out_str := value_or_empty cmd_out in
  let err_str := value_or_empty cmd_err in
  let output :=
    if negb (string_empty out_str) || negb (string_empty err_str) then
      "." +++ nl +++ "Output of command:" +++ nl +++ out_str +++ err_str
    else EmptyString in
  "Executing " +++ dump cmdline +++ " did not create specified tree "
    +++ tree_id +++ output.

(** Consumer of the INITIAL_COMMIT request (lines 215-385): verification of
    the tree, fetch into the Git cache and keep tag. *)
Definition after_commit (dump : list string -> string) (cfg : MapConfig)
  (w : World) (key : GitTreeInfo) (tmp_dir : path)
  (just_git_cas : GitCASPtr) (cmdline : list string)
  (command_output : ExecOutput) (op_result : GitOpValue) : Proc unit :=
  match result op_result with
  | None => fail "Commit failed" true
  | Some commit =>
    git_repo <~ call (OpenRepo (git_cas op_result)) (w_open_tmp w) ;;
    if negb git_repo then
      fail ("Could not open repository " +++ tmp_dir) true
    else
      tree_check <~ check_tree_exists (git_cas op_result) (hash key)
                      (w_check_tmp w)
                      (fun msg => "While checking tree exists:" +++ nl
                                    +++ msg) ;;
      match tree_check with
      | None => stop
      | Some false =>
          cmd_out <~ call (ReadFile (stdout_file command_output))
                       (w_read_file w (stdout_file command_output)) ;;
          cmd_err <~ call (ReadFile (stderr_file command_output))
                       (w_read_file w (stderr_file command_output)) ;;
          fail (mismatch_message dump cmdline (hash key) cmd_out cmd_err) true
      | Some true =>
          let target_path := tmp_dir in
          just_git_repo <~ call (OpenRepo just_git_cas) (w_open_just w) ;;
          if negb just_git_repo then
            fail ("Could not open Git repository " +++ target_path) true
          else
            tmp_dir <~ call (CreateTypedTmpDir "git-tree") (w_tmp_fetch w) ;;
            match tmp_dir with
            | None =>
                fail ("Could not create unique path for target "
                        +++ target_path) true
            | Some tmp_dir =>
                fetched <~ fetch_via_tmp_repo tmp_dir target_path
                             (w_fetch_via_tmp_repo w)
                             (fun msg => "While fetch via tmp repo for target "
                                           +++ target_path +++ ":" +++ nl
                                           +++ msg) ;;
                if negb fetched then stop
                else
                  let op_key :=
                    mkGitOpKey
                      (mkGitOpParams (GitRoot cfg) commit EmptyString
                                     (Some "Keep referenced tree alive") None)
                      KEEP_TAG in
                  ConsumeAfterKeysReady (CriticalGitOp op_key) (w_keep_tag w)
                    (fun op_result =>
                       match result op_result with
                       | None => fail "Keep tag failed" true
                       | Some _ =>
                           emit (TrackerStop (origin key)) ;;;
                           emit (SetValue false)
                       end)
                    (fun msg fatal =>
                       fail ("While running critical Git op KEEP_TAG for "
                               +++ "commit " +++ commit +++ " in target "
                               +++ tmp_dir +++ ":" +++ nl +++ msg) fatal)
            end
      end
  end.

(** Lines 167-394: run the generator command and import its result. *)
Definition run_generator (dump : list string -> string) (cfg : MapConfig)
  (w : World) (key : GitTreeInfo) (just_git_cas : GitCASPtr) : Proc unit :=
  tmp_dir <~ call (CreateTypedTmpDir "git-tree") (w_tmp_dir w) ;;
  match tmp_dir with
  | None => fail "Failed to create tmp directory for tree id map!" true
  | Some tmp_dir =>
    out_dir <~ call (CreateTypedTmpDir "git-tree") (w_out_dir w) ;;
    match out_dir with
    | None => fail "Failed to create tmp directory for tree id map!" true
    | Some out_dir =>
      let cmdline := launcher cfg ++ command key in
      let env := inherit (w_getenv w) (inherit_env key) (env_vars key) in
      command_output <~ call (Execute cmdline env tmp_dir out_dir)
                           (w_execute w) ;;
      match command_output with
      | None =>
          fail ("Failed to execute command:" +++ nl +++ dump cmdline) true
      | Some command_output =>
          let op_key :=
            mkGitOpKey
              (mkGitOpParams tmp_dir EmptyString EmptyString
                             (Some ("Content of tree " +++ hash key)) None)
              INITIAL_COMMIT in
          ConsumeAfterKeysReady (CriticalGitOp op_key) (w_initial_commit w)
            (after_commit dump cfg w key tmp_dir just_git_cas cmdline
                          command_output)
            (fun msg fatal =>
               fail ("While running critical Git op INITIAL_COMMIT for "
                       +++ "target " +++ tmp_dir +++ ":" +++ nl +++ msg) fatal)
      end
    end
  end.

(** Lines 115-165: the tree was retrieved from the remote CAS. *)
Definition move_from_cas (w : World) (key : GitTreeInfo)
  (local : IExecutionApi) (digest : ArtifactDigest) : Proc unit :=
  emit (TrackerStop (origin key)) ;;;
  tmp_dir <~ call (CreateTypedTmpDir "fetch-remote-git-tree")
               (w_tmp_remote w) ;;
  match tmp_dir with
  | None =>
      fail ("Failed to create tmp directory for copying git-tree "
              +++ hash key +++ " from remote CAS") true
  | Some tmp_dir =>
      let infos := [mkObjectInfo digest OT_Tree] in
      copied <~ call (LocalRetrieveToPaths infos [tmp_dir])
                  (RetrieveToPaths local infos [tmp_dir]) ;;
      if negb copied then
        fail ("Failed to copy git-tree " +++ hash key +++ " to " +++ tmp_dir)
             true
      else
        let c_info := mkCommitInfo tmp_dir "tree" (hash key) in
        ConsumeAfterKeysReady (ImportToGit c_info) (w_import_to_git w)
          (fun value =>
             match snd value with
             | None => fail "Importing to git failed" true
             | Some _ => emit (SetValue false)
             end)
          (fun msg fatal =>
             fail ("While moving git-tree " +++ hash key +++ " from "
                     +++ tmp_dir +++ " to local git:" +++ nl +++ msg) fatal)
  end.

(** The condition of line 109, evaluated left to right; on success the local
    API, which is then known not to be null. *)
Definition retrieve_from_remote (cfg : MapConfig) (digest : ArtifactDigest)
  : Proc (option IExecutionApi) :=
  match remote_api cfg, local_api cfg with
  | Some remote, Some local =>
      available <~ call (RemoteIsAvailable digest)
                     (IsAvailable remote digest) ;;
      if available then
        let infos := [mkObjectInfo digest OT_Tree] in
        retrieved <~ call (RemoteRetrieveToCas infos)
                       (RetrieveToCas remote infos) ;;
        pure (if retrieved then Some local else None)
      else pure None
  | _, _ => pure None
  end.

(** Consumer of the ENSURE_INIT request (lines 61-395). *)
Definition after_init (dump : list string -> string) (cfg : MapConfig)
  (w : World) (key : GitTreeInfo) (op_result : GitOpValue) : Proc unit :=
  match result op_result with
  | None => fail "Git cache init failed" true
  | Some _ =>
    git_repo <~ call (OpenRepo (git_cas op_result)) (w_open_cache w) ;;
    if negb git_repo then
      fail ("Could not open repository " +++ GitRoot cfg) true
    else
      tree_found <~ check_tree_exists (git_cas op_result) (hash key)
                      (w_check_cache w)
                      (fun msg => "While checking tree exists in Git cache:"
                                    +++ nl +++ msg) ;;
      match tree_found with
      | None => stop
      | Some true => emit (SetValue true)
      | Some false =>
          emit (TrackerStart (origin key)) ;;;
          let digest := mkDigest (hash key) 0 true in
          remote <~ retrieve_from_remote cfg digest ;;
          match remote with
          | Some local => move_from_cas w key local digest
          | None => run_generator dump cfg w key (git_cas op_result)
          end
      end
  end.

(** The compute function [tree_to_cache] of [CreateGitTreeFetchMap]. *)
Definition tree_to_cache (dump : list string -> string) (cfg : MapConfig)
  (w : World) (key : GitTreeInfo) : Proc unit :=
  let op_key :=
    mkGitOpKey
      (mkGitOpParams (GitRoot cfg) EmptyString EmptyString None (Some true))
      ENSURE_INIT in
  ConsumeAfterKeysReady (CriticalGitOp op_key) (w_ensure_init w)
    (after_init dump cfg w key)
    (fun msg fatal =>
       fail ("While running critical Git op ENSURE_INIT bare for target "
               +++ GitRoot cfg +++ ":" +++ nl +++ msg) fatal).

(** The events of a run, and the state they leave the key in. *)
Definition run (dump : list string -> string) (cfg : MapConfig) (w : World)
  (key : GitTreeInfo) : list Event :=
  fst (tree_to_cache dump cfg w key).

Inductive KeyState : Type :=
| Pending
| Ready (cache_hit : bool)
| Failed.

Fixpoint key_state (t : list Event) : KeyState :=
  match t with
  | [] => Pending
  | SetValue b :: _ => Ready b
  | Log _ true :: _ => Failed
  | _ :: r => key_state r
  end.

Definition is_start (o : string) (e : Event) : bool :=
  match e with TrackerStart o' => String.eqb o o' | _ => false end.

Definition is_stop (o : string) (e : Event) : bool :=
  match e with TrackerStop o' => String.eqb o o' | _ => false end.

Definition is_tracker (e : Event) : bool :=
  match e with TrackerStart _ | TrackerStop _ => true | _ => false end.

Definition is_remote (e : Event) : bool :=
  match e with
  | RemoteIsAvailable _ | RemoteRetrieveToCas _ => true
  | _ => false
  end.

Definition is_execute (e : Event) : bool :=
  match e with Execute _ _ _ _ => true | _ => false end.

Definition count (p : Event -> bool) (t : list Event) : nat :=
  List.length (filter p t).

(** The last message handed to the logger with the fatal flag. *)
Definition fatal_messages (t : list Event) : list string :=
  flat_map (fun e => match e with Log m true => [m] | _ => [] end) t.

(** [s] occurs in [t]. *)
Definition occurs_in (s t : string) : Prop :=
  exists before after : string, t = before +++ s +++ after.

(* ================================================================== *)
(** ** Vocabulary of the statements *)

(** Entries of [m] whose name has not been included yet. *)
Definition remaining (m : list (string * Expression)) (inc : list string)
  : nat :=
  List.length (filter (fun kv => negb (contains inc (fst kv))) m).

(** [inc'] is [inc] with new, pairwise different names appended. *)
Definition grown (inc inc' : list string) : Prop :=
  (exists ext, inc' = inc ++ ext) /\ (NoDup inc -> NoDup inc').

(** The names that repository [r] of [m] refers to as overlay roots, in the
    order of [kAltDirs]. *)
Definition layer_name (d : list (string * Expression)) (layer : string)
  : list string :=
  match Find d layer with
  | Some (EString v) => [v]
  | _ => []
  end.

Definition overlay_names (m : list (string * Expression)) (r : string)
  : list string :=
  match Find m r with
  | Some (EMap d) => flat_map (layer_name d) kAltDirs
  | _ => []
  end.

(** [v] is referenced as target, rule or expression root by repository [r]. *)
Definition overlay_root (m : list (string * Expression)) (r v : string)
  : Prop :=
  exists d layer,
    Find m r = Some (EMap d) /\ In layer kAltDirs /\
    Find d layer = Some (EString v).

(** Example configurations. *)
Definition file_repository (p : string) : Expression :=
  EMap [("type", EString "file"); ("path", EString p)].

(** Two repositories whose bindings refer to each other. *)
Definition cyclic_bindings : list (string * Expression) :=
  [("a", EMap [("repository", file_repository "/src/a");
               ("bindings", EMap [("x", EString "b")])]);
   ("b", EMap [("repository", file_repository "/src/b");
               ("bindings", EMap [("x", EString "a")])])].

(** A repository that names the same repository as target and rule root. *)
Definition shared_overlay : list (string * Expression) :=
  [("a", EMap [("repository", file_repository "/src/a");
               ("target_root", EString "b");
               ("rule_root", EString "b")]);
   ("b", EMap [("repository", file_repository "/src/b")])].

(** A file system in which every directory exists and can be created and
    paths are joined with a slash. *)
Definition plain_fs : FileSystem :=
  mkFileSystem
    (fun a b => if String.eqb a EmptyString then b else a +++ "/" +++ b)
    (fun p => p) (fun p => p) (fun p _ => p) (fun p => p)
    (fun _ => true) (fun _ => true) (fun _ => true) "/home/user" "/".

Definition plain_deps : FetchDeps :=
  mkFetchDeps (fun repo _ => Some repo)
              (fun t => if String.eqb t "file" then Some File
                        else if String.eqb t "archive" then Some Archive
                        else None)
              (fun _ => KeyReady true).

(** [just-mr fetch -o /dist], without a main repository. *)
Definition fetch_arguments : CommandLineArguments :=
  mkArgs kFetch
         (mkCommon (mkPaths "/work" None []) None 1)
         (mkSetupArgs None false)
         (mkFetchArgs (Some "/dist")).

(** The fetch directory does not lie in the invocation workspace, so that
    the check for the warning is skipped. *)
Definition outside_workspace (fs : FileSystem)
  (arguments : CommandLineArguments) (fetch_dir : path) : bool :=
  match workspace_root (just_mr_paths (common arguments)) with
  | Some ws => negb (is_subpath fs fetch_dir ws)
  | None => true
  end.


(** The stages of the git-tree fetch map that a run has passed, in terms of
    the answers of the collaborators. *)

(** The Git cache was initialised and opened, and the probe for the tree
    answered [present]. *)
Definition cache_probed (w : World) (cas : GitCASPtr) (present : bool)
  : Prop :=
  (exists r, w_ensure_init w = KeyReady (mkGitOpValue cas (Some r))) /\
  w_open_cache w = true /\
  w_check_cache w = CheckOk present.

(** Both APIs are configured and the remote CAS delivered the tree. *)
Definition remote_hit (cfg : MapConfig) (key : GitTreeInfo) : bool :=
  match remote_api cfg, local_api cfg with
  | Some remote, Some _ =>
      let digest := mkDigest (hash key) 0 true in
      IsAvailable remote digest
      && RetrieveToCas remote [mkObjectInfo digest OT_Tree]
  | _, _ => false
  end.

(** The run got as far as starting the generator command: the cache lacks
    the tree, the remote CAS did not deliver it and both temporary
    directories exist. *)
Definition generator_started (cfg : MapConfig) (w : World)
  (key : GitTreeInfo) (cas : GitCASPtr) : Prop :=
  cache_probed w cas false /\
  remote_hit cfg key = false /\
  (exists d, w_tmp_dir w = Some d) /\
  (exists d, w_out_dir w = Some d).

(** The generator command was run and gave [out]. *)
Definition generator_executed (cfg : MapConfig) (w : World)
  (key : GitTreeInfo) (cas : GitCASPtr) (out : ExecOutput) : Prop :=
  generator_started cfg w key cas /\ w_execute w = Some out.

(** The result of the command was committed and opened, and the check for
    the declared tree answered [present]. *)
Definition tree_verified (w : World) (present : bool) : Prop :=
  (exists cas c, w_initial_commit w = KeyReady (mkGitOpValue cas (Some c))) /\
  w_open_tmp w = true /\
  w_check_tmp w = CheckOk present.

(** The stages after the verification succeeded. *)
Definition imported_to_cache (w : World) : Prop :=
  w_open_just w = true /\
  (exists d, w_tmp_fetch w = Some d) /\
  w_fetch_via_tmp_repo w = FetchOk /\
  (exists cas c, w_keep_tag w = KeyReady (mkGitOpValue cas (Some c))).

(** The request that asks the remote CAS to deliver the tree of [key]. *)
Definition retrieve_request (key : GitTreeInfo) : Event :=
  RemoteRetrieveToCas [mkObjectInfo (mkDigest (hash key) 0 true) OT_Tree].

(** The last two events of a run, the last one first. *)
Definition last_two (t : list Event) : list Event := firstn 2 (rev t).

(** What holds of the tracker events of a run [t] that missed the cache. *)
Definition tracker_law (cfg : MapConfig) (key : GitTreeInfo)
  (t : list Event) : Prop :=
  nth_error t 3 = Some (TrackerStart (origin key)) /\
  count (is_start (origin key)) t = 1 /\
  count is_tracker t = 1 + count (is_stop (origin key)) t /\
  (forall b, key_state t = Ready b -> count (is_stop (origin key)) t = 1) /\
  (remote_hit cfg key = true ->
   count (is_stop (origin key)) t = 1 /\
   nth_error t 5 = Some (retrieve_request key) /\
   nth_error t 6 = Some (TrackerStop (origin key))) /\
  (remote_hit cfg key = false ->
   (forall b, key_state t = Ready b ->
              last_two t = [SetValue b; TrackerStop (origin key)]) /\
   ((forall b, key_state t <> Ready b) ->
    count (is_stop (origin key)) t = 0)).

(** What holds of the state of a key whose generator command was started. *)
Definition generator_law (w : World) (t : list Event) : Prop :=
  (w_execute w = None -> key_state t = Failed) /\
  (w_execute w <> None ->
   (key_state t = Ready false ->
    tree_verified w true /\ imported_to_cache w) /\
   key_state t <> Ready true /\
   (tree_verified w true -> imported_to_cache w ->
    key_state t = Ready false) /\
   (tree_verified w true ->
    key_state t = Ready false \/ key_state t = Failed \/
    exists msg, w_keep_tag w = KeyFailed msg false) /\
   (tree_verified w false -> key_state t = Failed)).

(** The same world with another exit status of the command. *)
Definition with_return_value (w : World) (rv : Z) : World :=
  mkWorld (w_ensure_init w) (w_open_cache w) (w_check_cache w)
          (w_tmp_remote w) (w_import_to_git w) (w_tmp_dir w) (w_out_dir w)
          (w_getenv w)
          (match w_execute w with
           | Some out =>
               Some (mkExecOutput rv (stdout_file out) (stderr_file out))
           | None => None
           end)
          (w_initial_commit w) (w_open_tmp w) (w_check_tmp w)
          (w_read_file w) (w_open_just w) (w_tmp_fetch w)
          (w_fetch_via_tmp_repo w) (w_keep_tag w).

(** Example runs. *)
Definition words (l : list string) : string := String.concat " " l.

Definition tree_key : GitTreeInfo :=
  mkGitTreeInfo "0123456789abcdef0123456789abcdef01234567" [] []
                ["sh"; "-c"; "mkdir out && echo hi > out/a"] "tree a".

Definition local_only : MapConfig :=
  mkMapConfig "/build/git" "git" ["env"; "--"] None None.

Definition serving_api : IExecutionApi :=
  mkApi (fun _ => true) (fun _ => true) (fun _ _ => true).

Definition with_remote : MapConfig :=
  mkMapConfig "/build/git" "git" ["env"; "--"]
              (Some serving_api) (Some serving_api).

Definition ready (odb : path) (commit : string) : KeyOutcome GitOpValue :=
  KeyReady (mkGitOpValue (Some odb) (Some commit)).

(** Every collaborator succeeds; the cache answers [cached], the repository
    made from the output of the command answers [created], the command
    prints "hi" and ends with status 1. *)
Definition smooth_world (cached created : bool) : World :=
  mkWorld (ready "/build/git" "") true (CheckOk cached)
          (Some "/tmp/remote")
          (KeyReady ("0123456789abcdef0123456789abcdef01234567",
                     Some "/build/git"))
          (Some "/tmp/work") (Some "/tmp/out")
          (fun _ => None)
          (Some (mkExecOutput 1 "/tmp/out/stdout" "/tmp/out/stderr"))
          (ready "/tmp/work" "c0ffee") true (CheckOk created)
          (fun f => if String.eqb f "/tmp/out/stdout" then Some "hi"
                    else None)
          true (Some "/tmp/fetch") FetchOk (ready "/build/git" "c0ffee").

(** As [smooth_world false true], but the keep tag cannot be written. *)
Definition keep_tag_fails : World :=
  let w := smooth_world false true in
  mkWorld (w_ensure_init w) (w_open_cache w) (w_check_cache w)
          (w_tmp_remote w) (w_import_to_git w) (w_tmp_dir w) (w_out_dir w)
          (w_getenv w) (w_execute w) (w_initial_commit w) (w_open_tmp w)
          (w_check_tmp w) (w_read_file w) (w_open_just w) (w_tmp_fetch w)
          (w_fetch_via_tmp_repo w)
          (KeyFailed "cannot lock ref" true).

(** As [smooth_world false false], but no temporary directory can be
    created for the tree that came from the remote CAS. *)
Definition no_tmp_for_remote : World :=
  let w := smooth_world false false in
  mkWorld (w_ensure_init w) (w_open_cache w) (w_check_cache w)
          None (w_import_to_git w) (w_tmp_dir w) (w_out_dir w)
          (w_getenv w) (w_execute w) (w_initial_commit w) (w_open_tmp w)
          (w_check_tmp w) (w_read_file w) (w_open_just w) (w_tmp_fetch w)
          (w_fetch_via_tmp_repo w) (w_keep_tag w).

(* ================================================================== *)
(** ** The binding graph *)

(** The names that repository [x] of [m] binds: the string values of its
    "bindings" map, in iteration order. *)
Definition bound_names (m : list (string * Expression)) (x : string)
  : list string :=
  match Find m x with
  | Some (EMap d) =>
      match Find d "bindings" with
      | Some (EMap bm) =>
          flat_map (fun v => match v with EString s => [s] | _ => [] end)
                   (Values bm)
      | _ => []
      end
  | _ => []
  end.

(** [x] can be reached from [main] along bindings. *)
Inductive reachable (m : list (string * Expression)) (main : string)
  : string -> Prop :=
| reach_main : reachable m main main
| reach_bound (x y : string) :
    reachable m main x -> In y (bound_names m x) -> reachable m main y.

(** Every name of [inc] outside of [stack] has all the names it binds in
    [inc]. *)
Definition closed_but (m : list (string * Expression))
  (stack inc : list string) : Prop :=
  forall x, In x inc -> In x stack \/
                        forall y, In y (bound_names m x) -> In y inc.

(** A configuration with an archive and a file repository, and arguments
    for the examples of the fetch subcommand. *)
Definition archive_repos : list (string * Expression) :=
  [("app", EMap [("repository", file_repository "/src/app");
                 ("bindings", EMap [("lib", EString "lib")])]);
   ("lib", EMap [("repository",
                  EMap [("type", EString "archive");
                        ("content", EString "c0ffee");
                        ("fetch", EString "https://example.org/lib.tar.gz")])])].

(** [just-mr fetch] without a place to fetch to. *)
Definition fetch_arguments_nowhere : CommandLineArguments :=
  mkArgs kFetch
         (mkCommon (mkPaths "/work" None []) None 1)
         (mkSetupArgs None false)
         (mkFetchArgs None).

(** [just-mr --main other fetch -o /dist]. *)
Definition fetch_arguments_other : CommandLineArguments :=
  mkArgs kFetch
         (mkCommon (mkPaths "/work" None []) (Some "other") 1)
         (mkSetupArgs None false)
         (mkFetchArgs (Some "/dist")).

(* ================================================================== *)
(** ** Reading the run-control file *)

(** [e->List()]. *)
Definition ListOf (e : Expression) : Res (list Expression) :=
  match e with
  | EList l => Ret l
  | _ => Throw "ExpressionTypeError: expected list"
  end.

(** The fields of the command line arguments that [ReadJustMRRC] reads and
    writes: [build_root] is [common.just_mr_paths->root], [rc_paths] holds
    the other paths and [just_args] is [just_cmd.just_args]. *)
Record RCArguments : Type := mkRCArgs {
  rc_path : option path;
  norc : bool;
  build_root : option path;
  checkout_locations_file : option path;
  just_path : option path;
  rc_paths : MultiRepoCommonPaths;
  just_args : list (string * list string)
}.

(** What [ReadJustMRRC] asks of its surroundings: whether a path is a file,
    the JSON value in a file ([None] when parsing throws), and the two
    constants of the repository that are not part of the sources. *)
Record RCEnv : Type := mkRCEnv {
  IsFile : path -> bool;
  parse_json_file : path -> option Json;
  kDefaultRCPath : path;
  kDefaultConfigLocations : list Json
}.

Definition set_build_root (c : RCArguments) (p : path) : RCArguments :=
  mkRCArgs (rc_path c) (norc c) (Some p) (checkout_locations_file c)
           (just_path c) (rc_paths c) (just_args c).

Definition set_checkout_locations_file (c : RCArguments) (p : path)
  : RCArguments :=
  mkRCArgs (rc_path c) (norc c) (build_root c) (Some p) (just_path c)
           (rc_paths c) (just_args c).

Definition set_just_path (c : RCArguments) (p : path) : RCArguments :=
  mkRCArgs (rc_path c) (norc c) (build_root c) (checkout_locations_file c)
           (Some p) (rc_paths c) (just_args c).

(** [distdirs.emplace_back(p)]. *)
Definition add_distdir (c : RCArguments) (p : path) : RCArguments :=
  mkRCArgs (rc_path c) (norc c) (build_root c) (checkout_locations_file c)
           (just_path c)
           (mkPaths (setup_root (rc_paths c)) (workspace_root (rc_paths c))
                    (distdirs (rc_paths c) ++ [p]))
           (just_args c).

Definition set_setup_root (c : RCArguments) (p : path) : RCArguments :=
  mkRCArgs (rc_path c) (norc c) (build_root c) (checkout_locations_file c)
           (just_path c)
           (mkPaths p (workspace_root (rc_paths c)) (distdirs (rc_paths c)))
           (just_args c).

(** [just_args[cmd_name] = args]. *)
Fixpoint assign_args (m : list (string * list string)) (cmd_name : string)
  (args : list string) : list (string * list string) :=
  match m with
  | [] => [(cmd_name, args)]
  | (k, v) :: r =>
      if String.eqb k cmd_name then (k, args) :: r
      else (k, v) :: assign_args r cmd_name args
  end.

Definition set_just_args (c : RCArguments) (cmd_name : string)
  (args : list string) : RCArguments :=
  mkRCArgs (rc_path c) (norc c) (build_root c) (checkout_locations_file c)
           (just_path c) (rc_paths c)
           (assign_args (just_args c) cmd_name args).

(** Lines 253-289: the content of the run-control file; [None] is the
    early [return std::nullopt] when there is no file at the default
    place. *)
Definition parse_rc (rc : RCEnv) (p : path) : Res (option Expression) :=
  match parse_json_file rc p with
  | None => Exit kExitConfigError
  | Some j =>
      let map := FromJson j in
      if negb (IsMap map) then Exit kExitConfigError else Ret (Some map)
  end.

Definition read_rc_config (rc : RCEnv) (clargs : RCArguments)
  : Res (option Expression) :=
  if negb (norc clargs) then
    match rc_path clargs with
    | None =>
        if negb (IsFile rc (kDefaultRCPath rc)) then Ret None
        else parse_rc rc (kDefaultRCPath rc)
    | Some p =>
        if negb (IsFile rc p) then Exit kExitConfigError else parse_rc rc p
    end
  else Ret (Some (EMap [])).

(** "read local build root; overwritten if user provided it already". *)
Definition rc_build_root (fs : FileSystem) (rc_config : Expression)
  (clargs : RCArguments) : Res RCArguments :=
  match build_root clargs with
  | None =>
      location <- Get rc_config "local build root" ;;
      build_root <- ReadLocation fs location
                      (workspace_root (rc_paths clargs)) ;;
      match build_root with
      | Some paths => Ret (set_build_root clargs (fst paths))
      | None => Ret clargs
      end
  | Some _ => Ret clargs
  end.

(** "read checkout locations file; overwritten if user provided it
    already". *)
Definition rc_checkout (fs : FileSystem) (rc : RCEnv)
  (rc_config : Expression) (clargs : RCArguments) : Res RCArguments :=
  match checkout_locations_file clargs with
  | None =>
      location <- Get rc_config "checkout locations" ;;
      checkout <- ReadLocation fs location
                    (workspace_root (rc_paths clargs)) ;;
      match checkout with
      | Some paths =>
          if negb (IsFile rc (fst paths)) then Exit kExitConfigError
          else Ret (set_checkout_locations_file clargs (fst paths))
      | None => Ret clargs
      end
  | Some _ => Ret clargs
  end.

(** "read distdirs; user can append, but does not overwrite". *)
Definition rc_distdirs (fs : FileSystem) (rc_config : Expression)
  (clargs : RCArguments) : Res RCArguments :=
  distdirs <- Get rc_config "distdirs" ;;
  if IsNotNull distdirs then
    distdirs_list <- ListOf distdirs ;;
    for_each distdirs_list clargs
      (fun l clargs =>
         paths <- ReadLocation fs l (workspace_root (rc_paths clargs)) ;;
         match paths with
         | Some paths =>
             if IsDirectory fs (fst paths)
             then Ret (add_distdir clargs (fst paths))
             else Ret clargs
         | None => Ret clargs
         end)
  else Ret clargs.

(** "read just path; overwritten if user provided it already". *)
Definition rc_just_path (fs : FileSystem) (rc_config : Expression)
  (clargs : RCArguments) : Res RCArguments :=
  match just_path clargs with
  | None =>
      location <- Get rc_config "just" ;;
      just <- ReadLocation fs location (workspace_root (rc_paths clargs)) ;;
      match just with
      | Some paths => Ret (set_just_path clargs (fst paths))
      | None => Ret clargs
      end
  | Some _ => Ret clargs
  end.

(** The lambda of lines 348-356: the vector is resized to the number of
    arguments and every argument is then appended to it. *)
Definition read_string_args (cmd_args : Expression) : Res (list string) :=
  args_list <- ListOf cmd_args ;;
  let args := repeat EmptyString (List.length args_list) in
  for_each args_list args
    (fun arg args => s <- StringOf arg ;; Ret (args ++ [s])).

(** "read additional just args; user can append, but does not overwrite". *)
Definition rc_just_args (rc_config : Expression) (clargs : RCArguments)
  : Res RCArguments :=
  just_args <- Get rc_config "just args" ;;
  if IsNotNull just_args then
    m <- Map just_args ;;
    for_each m clargs
      (fun entry clargs =>
         args <- read_string_args (snd entry) ;;
         Ret (set_just_args clargs (fst entry) args))
  else Ret clargs.

(** The two loops of lines 362-380: the first location that names a file. *)
Fixpoint find_config {E : Type} (read : E -> Res (option (path * path)))
  (is_file : path -> bool) (entries : list E) : Res (option (path * path)) :=
  match entries with
  | [] => Ret None
  | entry :: rest =>
      paths <- read entry ;;
      match paths with
      | Some paths =>
          if is_file (fst paths) then Ret (Some paths)
          else find_config read is_file rest
      | None => find_config read is_file rest
      end
  end.

(** "read config lookup order". *)
Definition rc_config_file (fs : FileSystem) (rc : RCEnv)
  (rc_config : Expression) (clargs : RCArguments)
  : Res (option (path * path)) :=
  config_lookup_order <- Get rc_config "config lookup order" ;;
  if IsNotNull config_lookup_order then
    entries <- ListOf config_lookup_order ;;
    find_config
      (fun entry => ReadLocation fs entry (workspace_root (rc_paths clargs)))
      (IsFile rc) entries
  else
    find_config
      (fun entry =>
         ReadLocation_json fs entry (workspace_root (rc_paths clargs)))
      (IsFile rc) (kDefaultConfigLocations rc).

(** [ReadJustMRRC]: the path of the repository configuration, if one is
    found, and the arguments as they are left. *)
Definition ReadJustMRRC (fs : FileSystem) (rc : RCEnv)
  (clargs : RCArguments) : Res (option path * RCArguments) :=
  rc_config <- read_rc_config rc clargs ;;
  match rc_config with
  | None => Ret (None, clargs)
  | Some rc_config =>
      clargs <- rc_build_root fs rc_config clargs ;;
      clargs <- rc_checkout fs rc rc_config clargs ;;
      clargs <- rc_distdirs fs rc_config clargs ;;
      clargs <- rc_just_path fs rc_config clargs ;;
      clargs <- rc_just_args rc_config clargs ;;
      found <- rc_config_file fs rc rc_config clargs ;;
      match found with
      | Some paths =>
          Ret (Some (fst paths), set_setup_root clargs (snd paths))
      | None => Ret (None, clargs)
      end
  end.

(** What [ReadJustMRRC] leaves of the arguments it was given. *)
Definition rc_extends (fs : FileSystem) (c c' : RCArguments) : Prop :=
  rc_path c' = rc_path c /\
  norc c' = norc c /\
  (forall p, build_root c = Some p -> build_root c' = Some p) /\
  (forall p, checkout_locations_file c = Some p ->
             checkout_locations_file c' = Some p) /\
  (forall p, just_path c = Some p -> just_path c' = Some p) /\
  workspace_root (rc_paths c') = workspace_root (rc_paths c) /\
  exists added,
    distdirs (rc_paths c') = distdirs (rc_paths c) ++ added /\
    Forall (fun d => IsDirectory fs d = true) added.

(** A phase that leaves the checkout locations file alone. *)
Definition rc_phase (fs : FileSystem) (c c' : RCArguments) : Prop :=
  rc_extends fs c c' /\
  checkout_locations_file c' = checkout_locations_file c.

(** A run-control file in the home directory that names a distribution
    directory, arguments for "build" and a place to look for the repository
    configuration. *)
Definition home_location (p : string) : Json :=
  JObject [("root", JString "home"); ("path", JString p)].

Definition plain_rc : RCEnv :=
  mkRCEnv
    (fun p => String.eqb p "/home/user/.just-mrrc"
              || String.eqb p "/home/user/repos.json")
    (fun _ =>
       Some (JObject
               [("distdirs", JArray [home_location "distfiles"]);
                ("just args",
                 JObject [("build", JArray [JString "-J"; JString "8"])]);
                ("config lookup order",
                 JArray [home_location "missing.json";
                         home_location "repos.json"])]))
    "/home/user/.just-mrrc"
    [home_location "repos.json"].

(** No run-control file exists, but the default configuration does. *)
Definition bare_rc : RCEnv :=
  mkRCEnv (fun p => String.eqb p "/home/user/repos.json")
          (fun _ => None)
          "/home/user/.just-mrrc"
          [home_location "repos.json"].

Definition rc_arguments : RCArguments :=
  mkRCArgs None false (Some "/build") None None
           (mkPaths "/work" None ["/dist"]) [].

(* ================================================================== *)
(** ** Further vocabulary for runs of the git-tree fetch map *)

(** The event resolves the key: the setter, or the logger with the fatal
    flag. *)
Definition is_resolution (e : Event) : bool :=
  match e with
  | SetValue _ => true
  | Log _ fatal => fatal
  | _ => false
  end.

(** No event but the last one resolves the key. *)
Definition resolves_last (t : list Event) : Prop :=
  forallb (fun e => negb (is_resolution e)) (removelast t) = true.

(** The state of the key tells what the probe of the Git cache answered. *)
Definition hit_law (w : World) (t : list Event) : Prop :=
  (key_state t = Ready true -> exists cas, cache_probed w cas true) /\
  (key_state t = Ready false -> exists cas, cache_probed w cas false).

(** The command is run at most once, and then with the launcher put before
    the command of the key, in the first temporary directory, with the
    environment of the key and the inherited variables. *)
Definition execute_law (cfg : MapConfig) (w : World) (key : GitTreeInfo)
  (t : list Event) : Prop :=
  filter is_execute t = [] \/
  (remote_hit cfg key = false /\
   exists d od,
     w_tmp_dir w = Some d /\ w_out_dir w = Some od /\
     filter is_execute t
     = [Execute (launcher cfg ++ command key)
                (inherit (w_getenv w) (inherit_env key) (env_vars key))
                d od]).

(** The keep-tag requests of a run. *)
Definition keep_tags (t : list Event) : list GitOpKey :=
  flat_map (fun e => match e with
                     | CriticalGitOp k =>
                         match op_type k with KEEP_TAG => [k] | _ => [] end
                     | _ => []
                     end) t.

(** A keep tag is requested at most once, in the Git cache, for the commit
    made from the output of the command, after the tree was verified and
    fetched into the Git cache. *)
Definition keep_tag_law (cfg : MapConfig) (w : World) (t : list Event)
  : Prop :=
  keep_tags t = [] \/
  (exists cas c,
     w_initial_commit w = KeyReady (mkGitOpValue cas (Some c)) /\
     w_check_tmp w = CheckOk true /\
     w_fetch_via_tmp_repo w = FetchOk /\
     keep_tags t
     = [mkGitOpKey
          (mkGitOpParams (GitRoot cfg) c EmptyString
                         (Some "Keep referenced tree alive") None)
          KEEP_TAG]).

(** [env.find(k)] on the sorted list of a [std::map]. *)
Fixpoint env_lookup (m : list (string * string)) (k : string)
  : option string :=
  match m with
  | [] => None
  | (k', v) :: r => if String.eqb k' k then Some v else env_lookup r k
  end.

(** The keys of the list increase strictly. *)
Fixpoint keys_sorted (m : list (string * string)) : bool :=
  match m with
  | [] => true
  | (k, _) :: r =>
      match r with
      | [] => true
      | (k', _) :: _ => String.ltb k k' && keys_sorted r
      end
  end.

(* ================================================================== *)
(** ** The Git object database (git_cas.cpp) *)

(** The build that is not the bootstrap build is modelled, without the
    messages written to the log. *)

Definition kOIDRawSize : nat := 20.   (* GIT_OID_RAWSZ *)
Definition kOIDHexSize : nat := 40.   (* GIT_OID_HEXSZ *)

(** An object id of libgit2. *)
Definition git_oid : Type := string.

(** [git_object_t]. *)
Inductive git_object_t : Type :=
| GIT_OBJECT_ANY
| GIT_OBJECT_INVALID
| GIT_OBJECT_COMMIT
| GIT_OBJECT_TREE
| GIT_OBJECT_BLOB
| GIT_OBJECT_TAG
| GIT_OBJECT_OFS_DELTA
| GIT_OBJECT_REF_DELTA.

(** [git_filemode_t], by value. *)
Definition GIT_FILEMODE_TREE : Z := 16384.              (* 0040000 *)
Definition GIT_FILEMODE_BLOB : Z := 33188.              (* 0100644 *)
Definition GIT_FILEMODE_BLOB_EXECUTABLE : Z := 33261.   (* 0100755 *)
Definition GIT_FILEMODE_LINK : Z := 40960.              (* 0120000 *)
Definition GIT_FILEMODE_COMMIT : Z := 57344.            (* 0160000 *)

(** An entry of a tree object: what [git_tree_entry_name],
    [git_tree_entry_id] and [git_tree_entry_filemode] give. *)
Record git_tree_entry : Type := mkGitTreeEntry {
  tree_entry_name : string;
  tree_entry_id : git_oid;
  tree_entry_filemode : Z
}.

(** What the code asks of libgit2 and of hex_string.hpp; a call of libgit2
    that returns non-zero gives [None].  The calls that take the object
    database are those on the database [odb_] of the object. *)
Record LibGit2 : Type := mkLibGit2 {
  git_oid_fromstr : string -> option git_oid;
  git_oid_fromraw : string -> option git_oid;
  git_oid_fmt : git_oid -> option string;
  FromHexString : string -> option string;
  git_odb_read : git_oid -> option string;
  git_odb_read_header : git_oid -> option (nat * git_object_t);
  git_repository_wrap_odb : bool;
  git_tree_lookup : git_oid -> option (list git_tree_entry)
}.

Record GitCAS : Type := mkGitCAS {
  initialized_ : bool;
  libgit2 : LibGit2
}.

Record TreeEntry : Type := mkTreeEntry {
  entry_name : string;
  entry_type : ObjectType
}.

(** [tree_entries_t]: the entries of a tree by raw id. *)
Definition tree_entries_t : Type := list (string * list TreeEntry).

(** Modelled from the spec: [IsTreeObject] of the missing object_type.hpp. *)
Definition IsTreeObject (t : ObjectType) : bool :=
  match t with OT_Tree => true | _ => false end.

Definition GitObjectID (git : LibGit2) (id : string) (is_hex_id : bool)
  : option git_oid :=
  if Nat.ltb (String.length id)
             (if is_hex_id then kOIDHexSize else kOIDRawSize)
  then None
  else if is_hex_id then git_oid_fromstr git id
  else git_oid_fromraw git id.

Definition ToRawString (git : LibGit2) (oid : git_oid) : option string :=
  match git_oid_fmt git oid with
  | Some hex_id => FromHexString git hex_id
  | None => None
  end.

Definition GitFileModeToObjectType (mode : Z) : option ObjectType :=
  if Z.eqb mode GIT_FILEMODE_BLOB then Some OT_File
  else if Z.eqb mode GIT_FILEMODE_BLOB_EXECUTABLE then Some OT_Executable
  else if Z.eqb mode GIT_FILEMODE_TREE then Some OT_Tree
  else None.

Definition GitTypeToObjectType (type : git_object_t) : option ObjectType :=
  match type with
  | GIT_OBJECT_BLOB => Some OT_File
  | GIT_OBJECT_TREE => Some OT_Tree
  | _ => None
  end.

Definition ValidateEntries (entries : tree_entries_t) : bool :=
  forallb (fun entry =>
             let nodes := snd entry in
             forallb (fun e => IsTreeObject (entry_type e)) nodes
             || negb (existsb (fun e => IsTreeObject (entry_type e)) nodes))
          entries.

(** [emplace_back(name, type)] on the vector of [raw_id], which is created
    when the id is new. *)
Fixpoint entries_emplace (entries : tree_entries_t) (raw_id : string)
  (node : TreeEntry) : tree_entries_t :=
  match entries with
  | [] => [(raw_id, [node])]
  | (k, nodes) :: r =>
      if String.eqb k raw_id then (k, nodes ++ [node]) :: r
      else (k, nodes) :: entries_emplace r raw_id node
  end.

(** The callback of the tree walk: the new payload and the return value. *)
Definition flat_tree_walker (git : LibGit2) (entry : git_tree_entry)
  (entries : tree_entries_t) : Z * tree_entries_t :=
  match ToRawString git (tree_entry_id entry) with
  | Some raw_id =>
      match GitFileModeToObjectType (tree_entry_filemode entry) with
      | Some type =>
          (1%Z, entries_emplace entries raw_id
                  (mkTreeEntry (tree_entry_name entry) type))
      | None => ((-1)%Z, entries)
      end
  | None => ((-1)%Z, entries)
  end.

(** [git_tree_walk] in pre-order with a callback that never asks to descend:
    the callback is called on the entries of the tree in order, and a
    negative return value ends the walk with an error. *)
Fixpoint git_tree_walk (callback : git_tree_entry -> tree_entries_t ->
                                   Z * tree_entries_t)
  (tree : list git_tree_entry) (payload : tree_entries_t)
  : Z * tree_entries_t :=
  match tree with
  | [] => (0%Z, payload)
  | entry :: rest =>
      let (r, payload) := callback entry payload in
      if (r <? 0)%Z then (r, payload)
      else git_tree_walk callback rest payload
  end.

Definition ReadObject (cas : GitCAS) (id : string) (is_hex_id : bool)
  : option string :=
  if negb (initialized_ cas) then None
  else
    match GitObjectID (libgit2 cas) id is_hex_id with
    | None => None
    | Some oid => git_odb_read (libgit2 cas) oid
    end.

Definition ReadTree (cas : GitCAS) (id : string) (is_hex_id : bool)
  : option tree_entries_t :=
  match GitObjectID (libgit2 cas) id is_hex_id with
  | None => None
  | Some oid =>
      if negb (git_repository_wrap_odb (libgit2 cas)) then None
      else
        match git_tree_lookup (libgit2 cas) oid with
        | None => None
        | Some tree =>
            let (r, entries) :=
              git_tree_walk (flat_tree_walker (libgit2 cas)) tree [] in
            if negb (Z.eqb r 0) then None else Some entries
        end
  end.

Definition ReadHeader (cas : GitCAS) (id : string) (is_hex_id : bool)
  : option (nat * ObjectType) :=
  if negb (initialized_ cas) then None
  else
    match GitObjectID (libgit2 cas) id is_hex_id with
    | None => None
    | Some oid =>
        match git_odb_read_header (libgit2 cas) oid with
        | None => None
        | Some (size, type) =>
            match GitTypeToObjectType type with
            | Some obj_type => Some (size, obj_type)
            | None => None
            end
        end
    end.

(** The entries listed under a raw id. *)
Fixpoint entries_at (entries : tree_entries_t) (raw_id : string)
  : list TreeEntry :=
  match entries with
  | [] => []
  | (k, nodes) :: r =>
      if String.eqb k raw_id then nodes else entries_at r raw_id
  end.

(** What the entry [e] of a tree adds to the list of [raw_id]. *)
Definition listed_node (git : LibGit2) (raw_id : string) (e : git_tree_entry)
  : list TreeEntry :=
  match ToRawString git (tree_entry_id e),
        GitFileModeToObjectType (tree_entry_filemode e) with
  | Some raw, Some type =>
      if String.eqb raw raw_id then [mkTreeEntry (tree_entry_name e) type]
      else []
  | _, _ => []
  end.

(** An object database for the examples: ids are kept as they are, every
    object is a blob of four bytes and every tree has a file, a directory
    and a second name for the file. *)
Definition toy_tree : list git_tree_entry :=
  [mkGitTreeEntry "README" "1111111111111111111111111111111111111111"
                  GIT_FILEMODE_BLOB;
   mkGitTreeEntry "src" "2222222222222222222222222222222222222222"
                  GIT_FILEMODE_TREE;
   mkGitTreeEntry "README.md" "1111111111111111111111111111111111111111"
                  GIT_FILEMODE_BLOB].

Definition toy_git (tree : list git_tree_entry) : LibGit2 :=
  mkLibGit2 (fun s => Some s) (fun s => Some s) (fun oid => Some oid)
            (fun hex => Some hex)
            (fun _ => Some "data")
            (fun _ => Some (4, GIT_OBJECT_BLOB))
            true
            (fun _ => Some tree).

Definition toy_cas (tree : list git_tree_entry) : GitCAS :=
  mkGitCAS true (toy_git tree).

(* ================================================================== *)
(** ** The description of a user-defined rule (describe.cpp) *)

Module Describe.

(** Modelled from the spec: main/exit_codes.hpp is missing from the sources;
    the two codes that describe.cpp returns. *)
Inductive ExitCode : Type :=
| kExitSuccess
| kExitFailure.

(** What the code reads of the name of a rule: [GetNamedTarget().name] and
    the value of [ToJson()]. *)
Record EntityName : Type := mkEntityName {
  target_name : string;
  name_json : Json
}.

(** What is written to the standard output: a JSON value dumped with an
    indentation, or the call of [PrettyPrintRule] on a rule description. *)
Inductive Output : Type :=
| JsonDump (members : list (string * Json)) (indent : nat)
| Pretty (rdesc : Json).

Definition kRuleDescriptionFields : list string :=
  ["config_fields"; "string_fields"; "target_fields"; "config_vars"; "doc";
   "field_doc"; "config_doc"; "artifacts_doc"; "runfiles_doc";
   "provides_doc"].

(** [j.find(key)]: the member of an object, nothing on any other value. *)
Definition find (j : Json) (key : string) : option Json :=
  match j with
  | JObject m => json_find m key
  | _ => None
  end.

(** [json[key] = value] on the members of an ordered object: a new key is
    put at the end. *)
Fixpoint assign (m : list (string * Json)) (key : string) (value : Json)
  : list (string * Json) :=
  match m with
  | [] => [(key, value)]
  | (k, v) :: r =>
      if String.eqb k key then (k, value) :: r
      else (k, v) :: assign r key value
  end.

(** Lines 141-147: the object that is printed for [print_json]. *)
Definition rule_json (rule_name : EntityName) (ruledesc : Json)
  : list (string * Json) :=
  fold_left (fun json f =>
               match find ruledesc f with
               | Some value => assign json f value
               | None => json
               end)
            kRuleDescriptionFields
            [("type", name_json rule_name)].

(** [DescribeUserDefinedRule], given what the rule file map delivers for
    the module of the rule (spec, section 4.1): the exit code and what is
    printed. *)
Definition DescribeUserDefinedRule (rule_file : KeyOutcome Json)
  (rule_name : EntityName) (print_json : bool) : ExitCode * list Output :=
  let rules_file := match rule_file with
                    | KeyReady v => v
                    | KeyFailed _ _ => JNull
                    end in
  let failed := match rule_file with
                | KeyReady _ => false
                | KeyFailed _ fatal => fatal
                end in
  if failed then (kExitFailure, [])
  else
    match find rules_file (target_name rule_name) with
    | None => (kExitFailure, [])
    | Some ruledesc =>
        if print_json
        then (kExitSuccess, [JsonDump (rule_json rule_name ruledesc) 2])
        else (kExitSuccess, [Pretty ruledesc])
    end.

End Describe.

(** A rules file with one rule, for the examples. *)
Definition library_rule : Json :=
  JObject [("doc", JArray [JString "A library"]);
           ("string_fields", JArray [JString "name"]);
           ("expression", JObject []);
           ("target_fields", JArray [JString "srcs"])].

Definition rules_file_example : Json := JObject [("library", library_rule)].

Definition library_name : Describe.EntityName :=
  Describe.mkEntityName "library"
    (JArray [JString "@"; JString "rules"; JString "CC"; JString "library"]).

(** The file mode of a tree entry is that of a tree. *)
Definition is_tree_mode (e : git_tree_entry) : bool :=
  Z.eqb (tree_entry_filemode e) GIT_FILEMODE_TREE.

(* ================================================================== *)
(** * Properties *)

(** ** Loops *)

Lemma for_each_invariant {A S : Type} (I : S -> Prop)
  (body : A -> S -> Res S) (l : list A) :
  (forall x s s', In x l -> I s -> body x s = Ret s' -> I s') ->
  forall s s', I s -> for_each l s body = Ret s' -> I s'.
Proof.
  induction l as [|x r IH]; intros Hbody s s' Hs Hrun; simpl in Hrun.
  - inversion Hrun; subst; exact Hs.
  - destruct (body x s) as [s1| | | |] eqn:Hx; simpl in Hrun; try discriminate.
    apply IH with (s := s1); auto.
    + intros y t t' Hy; apply Hbody; right; exact Hy.
    + apply Hbody with (x := x) (s := s); auto; left; reflexivity.
Qed.

Lemma for_each_has_fuel {A S : Type} (I : S -> Prop)
  (body : A -> S -> Res S) (l : list A) :
  (forall x s, I s -> body x s <> OutOfFuel) ->
  (forall x s s', I s -> body x s = Ret s' -> I s') ->
  forall s, I s -> for_each l s body <> OutOfFuel.
Proof.
  intros Hfuel Hstep; induction l as [|x r IH]; intros s Hs; simpl.
  - discriminate.
  - destruct (body x s) as [s1| | | |] eqn:Hx; simpl; try discriminate.
    + apply IH; eapply Hstep; eauto.
    + exfalso; eapply Hfuel; eauto.
Qed.

Lemma for_each_ext {A S : Type} (body body' : A -> S -> Res S) (l : list A) :
  (forall x s, body x s <> OutOfFuel -> body' x s = body x s) ->
  forall s, for_each l s body <> OutOfFuel ->
            for_each l s body' = for_each l s body.
Proof.
  intros Hext; induction l as [|x r IH]; intros s Hrun; simpl in *.
  - reflexivity.
  - assert (Hx : body x s <> OutOfFuel).
    { intro E; rewrite E in Hrun; apply Hrun; reflexivity. }
    rewrite (Hext x s Hx).
    destruct (body x s) as [s1| | | |]; simpl in *; auto.
Qed.

(** ** Membership tests and the measure of the traversal *)

Lemma contains_In (v : list string) (x : string) :
  contains v x = true <-> In x v.
Proof.
  unfold contains; rewrite existsb_exists; split.
  - intros [y [Hy E]]; apply String.eqb_eq in E; subst; exact Hy.
  - intros H; exists x; split; [exact H | apply String.eqb_refl].
Qed.

Lemma contains_not_In (v : list string) (x : string) :
  contains v x = false <-> ~ In x v.
Proof.
  rewrite <- contains_In; destruct (contains v x); split; intros;
    congruence.
Qed.

Lemma contains_app (u v : list string) (x : string) :
  contains (u ++ v) x = contains u x || contains v x.
Proof. unfold contains; apply existsb_app. Qed.

Lemma remaining_le_length m inc : remaining m inc <= List.length m.
Proof. unfold remaining; apply filter_length_le. Qed.

Lemma remaining_app_le m inc ext :
  remaining m (inc ++ ext) <= remaining m inc.
Proof.
  unfold remaining; induction m as [|[k v] r IH]; simpl; auto.
  rewrite contains_app.
  destruct (contains inc k); simpl; auto.
  destruct (contains ext k); simpl; lia.
Qed.

Lemma remaining_add_lt m inc name d :
  Find m name = Some d -> contains inc name = false ->
  remaining m (inc ++ [name]) < remaining m inc.
Proof.
  unfold remaining; induction m as [|[k v] r IH]; simpl; intros Hf Hn.
  - discriminate.
  - destruct (String.eqb_spec k name) as [E|E].
    + subst k. rewrite contains_app, Hn; simpl.
      rewrite String.eqb_refl; simpl.
      pose proof (remaining_app_le r inc [name]) as Hle.
      unfold remaining in Hle; lia.
    + specialize (IH Hf Hn).
      rewrite contains_app; simpl.
      replace (String.eqb k name) with false
        by (symmetry; apply String.eqb_neq; exact E).
      simpl; rewrite orb_false_r.
      destruct (contains inc k); simpl; lia.
Qed.

(** ** The traversal of the bindings *)

Lemma grown_refl inc : grown inc inc.
Proof. split; [exists []; symmetry; apply app_nil_r | auto]. Qed.

Lemma grown_trans a b c : grown a b -> grown b c -> grown a c.
Proof.
  intros [[e1 H1] N1] [[e2 H2] N2]; split; [|auto].
  exists (e1 ++ e2); subst; symmetry; apply app_assoc.
Qed.

Lemma grown_add inc name : contains inc name = false -> grown inc (inc ++ [name]).
Proof.
  intros Hn; split; [exists [name]; reflexivity|].
  intros Hnd. apply contains_not_In in Hn.
  apply NoDup_app; try assumption.
  - constructor; [intros []|constructor].
  - intros a Ha [E|[]]; subst; contradiction.
Qed.

Lemma grown_In inc inc' x : grown inc inc' -> In x inc -> In x inc'.
Proof. intros [[e H] _] Hx; subst; apply in_or_app; left; exact Hx. Qed.

Lemma traverse_grows : forall fuel repos name inc inc',
  traverse fuel repos name inc = Ret inc' ->
  grown inc inc' /\ In name inc'.
Proof.
  induction fuel as [|fuel IH]; intros repos name inc inc' Hrun.
  - discriminate.
  - simpl in Hrun.
    destruct (contains inc name) eqn:Hc.
    { inversion Hrun; subst; split;
        [apply grown_refl | apply contains_In; exact Hc]. }
    pose proof (grown_add inc name Hc) as Hadd.
    assert (Hin : In name (inc ++ [name]))
      by (apply in_or_app; right; left; reflexivity).
    assert (Hdone : forall s, grown (inc ++ [name]) s ->
                              grown inc s /\ In name s).
    { intros s Hs; split; [eapply grown_trans; eauto|].
      eapply grown_In; eauto. }
    destruct (Get repos name) as [d| | | |]; simpl in Hrun; try discriminate.
    destruct (IsNotNull d); simpl in Hrun;
      [|inversion Hrun; subst; apply Hdone, grown_refl].
    destruct (Get d "bindings") as [b| | | |]; simpl in Hrun;
      try discriminate.
    destruct (IsNotNull b && IsMap b);
      [|inversion Hrun; subst; apply Hdone, grown_refl].
    destruct (Map b) as [bm| | | |]; simpl in Hrun; try discriminate.
    apply Hdone.
    revert Hrun; apply for_each_invariant; [|apply grown_refl].
    intros bound s s' _ Hs Hbody.
    destruct (IsNotNull bound && IsString bound).
    + destruct (StringOf bound) as [n| | | |]; simpl in Hbody;
        try discriminate.
      apply IH in Hbody; destruct Hbody as [Hg _].
      eapply grown_trans; eauto.
    + inversion Hbody; subst; exact Hs.
Qed.

Lemma grown_remaining m inc inc' :
  grown inc inc' -> remaining m inc' <= remaining m inc.
Proof. intros [[e H] _]; subst; apply remaining_app_le. Qed.

(** The accessors of an expression return or throw, nothing else. *)
Lemma Map_cases e :
  (exists m, Map e = Ret m) \/ (exists w, Map e = Throw w).
Proof. destruct e; simpl; eauto. Qed.

Lemma StringOf_cases e :
  (exists s, StringOf e = Ret s) \/ (exists w, StringOf e = Throw w).
Proof. destruct e; simpl; eauto. Qed.

Lemma At_cases e k :
  (exists v, At e k = Ret v) \/ (exists w, At e k = Throw w).
Proof. destruct e; unfold At; simpl; eauto. Qed.

Lemma Get_cases e k :
  (exists v, Get e k = Ret v) \/ (exists w, Get e k = Throw w).
Proof.
  destruct e; unfold Get, At; simpl; eauto.
  destruct (Find m k); eauto.
Qed.

Lemma Get_map m k :
  Get (EMap m) k =
  Ret (match Find m k with Some v => v | None => ENone end).
Proof. unfold Get, At; simpl; destruct (Find m k); reflexivity. Qed.

(** With more fuel than entries not yet included the recursion never runs
    dry. *)
Lemma traverse_fuel_enough m : forall fuel name inc,
  remaining m inc < fuel -> traverse fuel (EMap m) name inc <> OutOfFuel.
Proof.
  induction fuel as [|fuel IH]; intros name inc Hlt; [lia|].
  simpl.
  destruct (contains inc name) eqn:Hc; [discriminate|].
  rewrite Get_map; simpl.
  destruct (Find m name) as [d|] eqn:Hf; simpl; [|discriminate].
  destruct (IsNotNull d); simpl; [|discriminate].
  destruct (Get_cases d "bindings") as [[b Hb]|[w Hb]]; rewrite Hb; simpl;
    [|discriminate].
  destruct (IsNotNull b && IsMap b); [|discriminate].
  destruct (Map_cases b) as [[bm Hm]|[w Hm]]; rewrite Hm; simpl;
    [|discriminate].
  pose proof (remaining_add_lt m inc name Hf Hc) as Hdec.
  apply for_each_has_fuel
    with (I := fun s => remaining m s <= remaining m (inc ++ [name]));
    [| |lia].
  - intros bound s Hs.
    destruct (IsNotNull bound && IsString bound); [|discriminate].
    destruct (StringOf_cases bound) as [[n Hn]|[w Hn]]; rewrite Hn; simpl;
      [|discriminate].
    apply IH; lia.
  - intros bound s s' Hs Hbody.
    destruct (IsNotNull bound && IsString bound).
    + destruct (StringOf bound) as [n| | | |]; simpl in Hbody;
        try discriminate.
      apply traverse_grows in Hbody; destruct Hbody as [Hg _].
      apply (grown_remaining m) in Hg; lia.
    + inversion Hbody; subst; exact Hs.
Qed.

(** Fuel beyond what a run needs does not change its result. *)
Lemma traverse_fuel_mono : forall fuel repos name inc,
  traverse fuel repos name inc <> OutOfFuel ->
  forall k, traverse (fuel + k) repos name inc = traverse fuel repos name inc.
Proof.
  induction fuel as [|fuel IH]; intros repos name inc Hrun k.
  - exfalso; apply Hrun; reflexivity.
  - simpl in *.
    destruct (contains inc name); [reflexivity|].
    destruct (Get repos name) as [d| | | |]; simpl in *; try reflexivity.
    destruct (IsNotNull d); simpl in *; [|reflexivity].
    destruct (Get d "bindings") as [b| | | |]; simpl in *; try reflexivity.
    destruct (IsNotNull b && IsMap b); [|reflexivity].
    destruct (Map b) as [bm| | | |]; simpl in *; try reflexivity.
    apply for_each_ext; [|exact Hrun].
    intros bound s Hbody.
    destruct (IsNotNull bound && IsString bound); [|reflexivity].
    destruct (StringOf bound) as [n| | | |]; simpl in *; try reflexivity.
    apply IH; exact Hbody.
Qed.

(** The first call of [traverse] on a name that is not included yet appends
    it before anything else. *)
Lemma traverse_step : forall fuel repos name inc inc',
  traverse (S fuel) repos name inc = Ret inc' ->
  contains inc name = false ->
  grown (inc ++ [name]) inc'.
Proof.
  intros fuel repos name inc inc' Hrun Hc; simpl in Hrun; rewrite Hc in Hrun.
  destruct (Get repos name) as [d| | | |]; simpl in Hrun; try discriminate.
  destruct (IsNotNull d); simpl in Hrun;
    [|inversion Hrun; subst; apply grown_refl].
  destruct (Get d "bindings") as [b| | | |]; simpl in Hrun; try discriminate.
  destruct (IsNotNull b && IsMap b);
    [|inversion Hrun; subst; apply grown_refl].
  destruct (Map b) as [bm| | | |]; simpl in Hrun; try discriminate.
  revert Hrun; apply for_each_invariant; [|apply grown_refl].
  intros bound s s' _ Hs Hbody.
  destruct (IsNotNull bound && IsString bound).
  - destruct (StringOf bound) as [n| | | |]; simpl in Hbody;
      try discriminate.
    apply traverse_grows in Hbody; destruct Hbody as [Hg _].
    eapply grown_trans; eauto.
  - inversion Hbody; subst; exact Hs.
Qed.

Lemma traverse_first fuel repos name inc' :
  traverse fuel repos name [] = Ret inc' -> hd_error inc' = Some name.
Proof.
  destruct fuel as [|fuel]; [discriminate|]; intros Hrun.
  apply traverse_step in Hrun; [|reflexivity].
  destruct Hrun as [[ext E] _]; subst; reflexivity.
Qed.

(** ** The overlay roots *)

Lemma add_layer_map d layer stp :
  add_layer (EMap d) layer stp = Ret (stp ++ layer_name d layer).
Proof.
  unfold add_layer, layer_name; rewrite Get_map.
  destruct (Find d layer) as [[]|]; simpl;
    rewrite ?app_nil_r; reflexivity.
Qed.

Lemma add_overlays_spec m r stp stp' :
  add_overlays (EMap m) r stp = Ret stp' -> stp' = stp ++ overlay_names m r.
Proof.
  unfold add_overlays, overlay_names; rewrite Get_map; simpl.
  destruct (Find m r) as [d|]; simpl;
    [|intros H; inversion H; symmetry; apply app_nil_r].
  destruct d; simpl; try discriminate;
    try (intros H; inversion H; symmetry; apply app_nil_r).
  repeat (rewrite add_layer_map; simpl).
  rewrite app_nil_r, <- !app_assoc.
  intros H; inversion H; reflexivity.
Qed.

Lemma add_overlays_all m : forall names stp stp',
  for_each names stp (add_overlays (EMap m)) = Ret stp' ->
  stp' = stp ++ flat_map (overlay_names m) names.
Proof.
  induction names as [|r rest IH]; simpl; intros stp stp' Hrun.
  - inversion Hrun; symmetry; apply app_nil_r.
  - destruct (add_overlays (EMap m) r stp) as [s1| | | |] eqn:Hr;
      simpl in Hrun; try discriminate.
    apply add_overlays_spec in Hr; apply IH in Hrun; subst.
    symmetry; apply app_assoc.
Qed.

Lemma overlay_names_root m r v :
  In v (overlay_names m r) <-> overlay_root m r v.
Proof.
  unfold overlay_names, overlay_root; split.
  - destruct (Find m r) as [[]|]; simpl; try tauto.
    unfold layer_name; intros H.
    repeat (apply in_app_or in H; destruct H as [H|H]);
      [exists m0, "target_root" | exists m0, "rule_root"
       | exists m0, "expression_root" | destruct H].
    all: match goal with
         | H : In _ (match Find ?d ?l with _ => _ end) |- _ =>
             destruct (Find d l) as [[]|]; simpl in H; try tauto;
             destruct H as [H|[]]; subst; simpl; tauto
         end.
  - intros [d [layer [Hr [Hl Hv]]]]; rewrite Hr.
    apply in_flat_map; exists layer; split; [exact Hl|].
    unfold layer_name; rewrite Hv; left; reflexivity.
Qed.

Lemma add_overlays_fuel repos r stp : add_overlays repos r stp <> OutOfFuel.
Proof.
  unfold add_overlays.
  destruct (Get_cases repos r) as [[d Hd]|[w Hd]]; rewrite Hd; cbn [bind];
    [|discriminate].
  destruct (IsNotNull d); [|discriminate].
  apply for_each_has_fuel with (I := fun _ => True); auto.
  intros layer s _; unfold add_layer.
  destruct (Get_cases d layer) as [[v Hv]|[w Hv]]; rewrite Hv; simpl;
    [|discriminate].
  destruct (IsNotNull v && IsString v); [|discriminate].
  destruct (StringOf_cases v) as [[n Hn]|[w Hn]]; rewrite Hn; simpl;
    discriminate.
Qed.

(** ** The closure *)

Lemma reachable_unfold m main sr r :
  ReachableRepositories (EMap m) main sr = Ret r ->
  traverse (S (List.length m)) (EMap m) main [] = Ret (to_include r) /\
  to_setup r = to_include r ++ flat_map (overlay_names m) (to_include r).
Proof.
  unfold ReachableRepositories; simpl IsMap; cbv iota; simpl to_include.
  simpl traverse_fuel.
  destruct (traverse (S (List.length m)) (EMap m) main []) as [inc| | | |];
    cbn [bind]; try discriminate.
  destruct (for_each inc inc (add_overlays (EMap m))) as [stp| | | |] eqn:Ho;
    cbn [bind]; try discriminate.
  intros H; inversion H; subst; simpl.
  split; [reflexivity | apply add_overlays_all; exact Ho].
Qed.

(** C5 (amended): after [ReachableRepositories], [to_setup] is [to_include]
    followed by the overlay roots (target, rule and expression root) of the
    members of [to_include], in order and without removing duplicates; as a
    set it is the union of [to_include] with those overlay roots,
    [to_include] has no duplicates and is contained in [to_setup]. *)
Theorem C5_to_setup_appends_overlays m main sr r :
  ReachableRepositories (EMap m) main sr = Ret r ->
  to_setup r = to_include r ++ flat_map (overlay_names m) (to_include r) /\
  (forall v, In v (to_setup r) <->
             In v (to_include r) \/
             exists x, In x (to_include r) /\ overlay_root m x v) /\
  NoDup (to_include r) /\
  incl (to_include r) (to_setup r).
Proof.
  intros Hrun; apply reachable_unfold in Hrun; destruct Hrun as [Ht Hs].
  split; [exact Hs|]; split; [|split].
  - intros v; rewrite Hs, in_app_iff, in_flat_map.
    split; (intros [H|[x [Hx Hv]]]; [left; exact H|right; exists x]);
      (split; [exact Hx|apply overlay_names_root; exact Hv]).
  - apply traverse_grows in Ht; destruct Ht as [[_ Hn] _].
    apply Hn; constructor.
  - rewrite Hs; apply incl_appl, incl_refl.
Qed.

Lemma C5_to_setup_appends_overlays_witness :
  [ "a"; "b"; "b" ] = [ "a" ] ++ flat_map (overlay_names shared_overlay) ["a"]
  /\ (forall v, In v ["a"; "b"; "b"] <->
                In v ["a"] \/
                exists x, In x ["a"] /\ overlay_root shared_overlay x v)
  /\ NoDup ["a"] /\ incl ["a"] ["a"; "b"; "b"].
Proof.
  exact (C5_to_setup_appends_overlays shared_overlay "a"
           (mkSetupRepos [] []) (r := mkSetupRepos ["a"; "b"; "b"] ["a"])
           eq_refl).
Defined.

(** C5 (as stated) fails: a repository whose target root and rule root name
    the same repository makes [to_setup] list that name twice. *)
Lemma C5_to_setup_has_duplicates :
  exists r, ReachableRepositories (EMap shared_overlay) "a"
              (mkSetupRepos [] []) = Ret r /\
            ~ NoDup (to_setup r).
Proof.
  exists (mkSetupRepos ["a"; "b"; "b"] ["a"]); split; [reflexivity|].
  simpl; intros H.
  inversion H as [|x l _ H1]; subst.
  inversion H1 as [|y l' H2 _]; subst.
  apply H2; left; reflexivity.
Qed.

(** C6: applying [ReachableRepositories] again to the record it has filled
    yields the same record; [to_include] has no duplicates and starts with
    [main]. *)
Theorem C6_reachable_idempotent m main sr r :
  ReachableRepositories (EMap m) main sr = Ret r ->
  ReachableRepositories (EMap m) main r = Ret r /\
  NoDup (to_include r) /\
  hd_error (to_include r) = Some main.
Proof.
  intros Hrun; split; [exact Hrun|].
  apply reachable_unfold in Hrun; destruct Hrun as [Ht _]; split.
  - apply traverse_grows in Ht; destruct Ht as [[_ Hn] _].
    apply Hn; constructor.
  - eapply traverse_first; exact Ht.
Qed.

Lemma C6_reachable_idempotent_witness :
  ReachableRepositories (EMap cyclic_bindings) "a"
    (mkSetupRepos ["a"; "b"] ["a"; "b"])
  = Ret (mkSetupRepos ["a"; "b"] ["a"; "b"]) /\
  NoDup ["a"; "b"] /\ hd_error ["a"; "b"] = Some "a".
Proof.
  exact (C6_reachable_idempotent cyclic_bindings "a" (mkSetupRepos [] [])
           (r := mkSetupRepos ["a"; "b"] ["a"; "b"]) eq_refl).
Defined.

(** C7: the traversal of the bindings ends for every repositories mapping,
    cyclic or not: the call bound of the model is never reached and a larger
    bound gives the same result; for two repositories bound to each other
    and main "a" the result is to_include = [a, b], without error. *)
Theorem C7_bindings_traversal_terminates :
  (forall m main sr, ReachableRepositories (EMap m) main sr <> OutOfFuel) /\
  (forall m main k,
     traverse (traverse_fuel (EMap m) + k) (EMap m) main []
     = traverse (traverse_fuel (EMap m)) (EMap m) main []) /\
  ReachableRepositories (EMap cyclic_bindings) "a" (mkSetupRepos [] [])
  = Ret (mkSetupRepos ["a"; "b"] ["a"; "b"]).
Proof.
  assert (Hfuel : forall m main,
             traverse (S (List.length m)) (EMap m) main [] <> OutOfFuel).
  { intros m main; apply traverse_fuel_enough.
    pose proof (remaining_le_length m []); lia. }
  split; [|split].
  - intros m main sr; unfold ReachableRepositories; simpl IsMap; cbv iota.
    simpl traverse_fuel; simpl to_include.
    specialize (Hfuel m main).
    destruct (traverse (S (List.length m)) (EMap m) main []) as [inc| | | |];
      cbn [bind]; try discriminate; [|contradiction].
    assert (Ho : for_each inc inc (add_overlays (EMap m)) <> OutOfFuel).
    { apply for_each_has_fuel with (I := fun _ => True); auto.
      intros x s _; apply add_overlays_fuel. }
    destruct (for_each inc inc (add_overlays (EMap m))) as [stp| | | |];
      cbn [bind]; try discriminate; contradiction.
  - intros m main k; apply traverse_fuel_mono; apply Hfuel.
  - reflexivity.
Qed.

(** ** The order of strings and the default main repository *)

Lemma ascii_compare_refl (a : ascii) : Ascii.compare a a = Eq.
Proof. unfold Ascii.compare; apply N.compare_refl. Qed.

Lemma string_compare_refl (s : string) : String.compare s s = Eq.
Proof.
  induction s as [|a s IH]; simpl; [reflexivity|].
  rewrite ascii_compare_refl; exact IH.
Qed.

Lemma string_compare_lt_trans : forall a b c : string,
  String.compare a b = Lt -> String.compare b c = Lt ->
  String.compare a c = Lt.
Proof.
  induction a as [|x a IH]; intros [|y b] [|z c]; simpl; try congruence.
  destruct (Ascii.compare x y) eqn:Hxy; try discriminate;
    destruct (Ascii.compare y z) eqn:Hyz; try discriminate; intros H1 H2.
  - apply Ascii.compare_eq_iff in Hxy, Hyz; subst.
    rewrite ascii_compare_refl; eapply IH; eauto.
  - apply Ascii.compare_eq_iff in Hxy; subst; rewrite Hyz; reflexivity.
  - apply Ascii.compare_eq_iff in Hyz; subst; rewrite Hxy; reflexivity.
  - unfold Ascii.compare in *.
    rewrite N.compare_lt_iff in Hxy, Hyz.
    assert (E : (N_of_ascii x ?= N_of_ascii z)%N = Lt)
      by (apply N.compare_lt_iff; lia).
    rewrite E; reflexivity.
Qed.

Lemma ltb_trans a b c :
  String.ltb a b = true -> String.ltb b c = true -> String.ltb a c = true.
Proof.
  unfold String.ltb; intros H1 H2.
  destruct (String.compare a b) eqn:Hab; try discriminate.
  destruct (String.compare b c) eqn:Hbc; try discriminate.
  rewrite (string_compare_lt_trans a b c Hab Hbc); reflexivity.
Qed.

Lemma ltb_irrefl a : String.ltb a a = false.
Proof. unfold String.ltb; rewrite string_compare_refl; reflexivity. Qed.

Lemma leb_ltb a b : String.leb a b = negb (String.ltb b a).
Proof.
  unfold String.leb, String.ltb; rewrite (String.compare_antisym a b).
  destruct (String.compare b a); reflexivity.
Qed.

Lemma fold_min_spec : forall (r seen : list string) (best : string),
  In best seen ->
  (forall y, In y seen -> String.ltb y best = false) ->
  let res := fold_left (fun smallest y =>
                          if String.ltb y smallest then y else smallest)
                       r best in
  In res (seen ++ r) /\
  (forall y, In y (seen ++ r) -> String.ltb y res = false).
Proof.
  induction r as [|y0 r IH]; intros seen best Hin Hmin; simpl.
  - rewrite app_nil_r; split; assumption.
  - assert (E : seen ++ y0 :: r = (seen ++ [y0]) ++ r)
      by (rewrite <- app_assoc; reflexivity).
    rewrite E.
    destruct (String.ltb y0 best) eqn:Hlt; apply IH.
    + apply in_or_app; right; left; reflexivity.
    + intros y Hy; apply in_app_or in Hy; destruct Hy as [Hy|[Hy|[]]].
      * destruct (String.ltb y y0) eqn:Hyy; [|reflexivity].
        rewrite <- (Hmin y Hy); symmetry; eapply ltb_trans; eauto.
      * subst; apply ltb_irrefl.
    + apply in_or_app; left; exact Hin.
    + intros y Hy; apply in_app_or in Hy; destruct Hy as [Hy|[Hy|[]]].
      * apply Hmin; exact Hy.
      * subst; exact Hlt.
Qed.

Lemma min_element_spec l x :
  min_element l = Some x ->
  In x l /\ (forall y, In y l -> String.leb x y = true).
Proof.
  destruct l as [|a r]; simpl; [discriminate|]; intros H; inversion H.
  destruct (fold_min_spec r [a] a) as [Hin Hmin].
  - left; reflexivity.
  - intros y [E|[]]; subst; apply ltb_irrefl.
  - split; [exact Hin|].
    intros y Hy; rewrite leb_ltb, (Hmin y Hy); reflexivity.
Qed.

(** C8: when neither the command line nor the setup arguments name a main
    repository and the repositories mapping is not empty, the name handed to
    [ReachableRepositories] by the fetch subcommand is the smallest
    repository name in lexicographic order. *)
Theorem C8_default_main_is_smallest (fs : FileSystem)
  (m : list (string * Expression)) (arguments : CommandLineArguments)
  (fetch_dir : path) :
  m <> [] ->
  main (common arguments) = None ->
  sub_main (setup arguments) = None ->
  sub_all (setup arguments) = false ->
  exists k,
    In k (Keys m) /\
    (forall k', In k' (Keys m) -> String.leb k k' = true) /\
    select_main (override_main arguments) (mkSetupRepos (Keys m) (Keys m))
    = Some k /\
    fetch_closure fs (EMap m) (override_main arguments) fetch_dir
    = (fetch_repos <- ReachableRepositories (EMap m) k
                        (mkSetupRepos (Keys m) (Keys m)) ;;
       _ <- workspace_warning fs (EMap m) (Some k) (override_main arguments)
              fetch_dir ;;
       Ret fetch_repos).
Proof.
  intros Hne Hmain Hsub Hall.
  unfold override_main; rewrite Hsub.
  destruct (min_element (Keys m)) as [k|] eqn:Hk.
  - exists k; destruct (min_element_spec _ Hk) as [Hin Hmin].
    assert (Hsel : select_main arguments (mkSetupRepos (Keys m) (Keys m))
                   = Some k).
    { unfold select_main; rewrite Hmain; simpl.
      destruct (Keys m); [discriminate Hk | exact Hk]. }
    repeat split; auto.
    unfold fetch_closure, DefaultReachableRepositories; simpl.
    rewrite Hall, Hsel; reflexivity.
  - destruct m; [congruence | discriminate].
Qed.

Lemma C8_default_main_is_smallest_witness :
  exists k,
    In k (Keys cyclic_bindings) /\
    (forall k', In k' (Keys cyclic_bindings) -> String.leb k k' = true) /\
    select_main (override_main fetch_arguments)
      (mkSetupRepos (Keys cyclic_bindings) (Keys cyclic_bindings)) = Some k /\
    fetch_closure plain_fs (EMap cyclic_bindings)
      (override_main fetch_arguments) "/dist"
    = (fetch_repos <- ReachableRepositories (EMap cyclic_bindings) k
                        (mkSetupRepos (Keys cyclic_bindings)
                                      (Keys cyclic_bindings)) ;;
       _ <- workspace_warning plain_fs (EMap cyclic_bindings) (Some k)
              (override_main fetch_arguments) "/dist" ;;
       Ret fetch_repos).
Proof.
  apply (C8_default_main_is_smallest plain_fs (m := cyclic_bindings)
           fetch_arguments "/dist");
    [discriminate | reflexivity | reflexivity | reflexivity].
Defined.

(** ** The repositories key of the configuration *)

(** C9 (as stated) fails: the fetch subcommand rejects a configuration
    without the key "repositories" with the fetch error code. *)
Lemma C9_missing_repositories_rejected :
  Find [("main", EString "a")] "repositories" = None /\
  run_subcommand plain_fs plain_deps (EMap [("main", EString "a")])
    fetch_arguments = Ret kExitFetchError /\
  kExitFetchError <> kExitSuccess.
Proof. repeat split; discriminate. Qed.

(** C9 (amended): for the fetch subcommand the key "repositories" is
    mandatory: a configuration without it, or with a null value for it, ends
    in the fetch error code.  A configuration whose repositories mapping is
    present and empty ends in the success code when no main repository is
    named, a fetch directory is found and can be created, and either all
    repositories are asked for or the fetch directory lies outside of the
    invocation workspace. *)
Theorem C9_repositories_key_is_mandatory (fs : FileSystem) (deps : FetchDeps)
  (cfg : list (string * Expression)) (arguments : CommandLineArguments) :
  (Find cfg "repositories" = None \/ Find cfg "repositories" = Some ENone ->
   MultiRepoFetch fs deps (EMap cfg) arguments = Ret kExitFetchError) /\
  (forall d,
     Find cfg "repositories" = Some (EMap []) ->
     main (common arguments) = None ->
     find_fetch_dir fs arguments = Some d ->
     CreateDirectory fs d = true ->
     sub_all (setup arguments) = true \/
     outside_workspace fs arguments d = true ->
     MultiRepoFetch fs deps (EMap cfg) arguments = Ret kExitSuccess).
Proof.
  split.
  - intros H; unfold MultiRepoFetch.
    destruct (find_fetch_dir fs arguments); [|reflexivity].
    rewrite Get_map; destruct H as [H|H]; rewrite H; reflexivity.
  - intros d Hr Hmain Hd Hc Hw; unfold MultiRepoFetch.
    rewrite Hd, Get_map, Hr; simpl.
    unfold fetch_closure, DefaultReachableRepositories; simpl.
    destruct (sub_all (setup arguments)) eqn:Hall; simpl.
    + rewrite Hc; reflexivity.
    + destruct Hw as [Hw|Hw]; [discriminate|].
      unfold select_main; rewrite Hmain; simpl.
      unfold workspace_warning; unfold outside_workspace in Hw.
      destruct (workspace_root (just_mr_paths (common arguments))).
      * destruct (is_subpath fs d p); [discriminate|].
        simpl; rewrite Hc; reflexivity.
      * simpl; rewrite Hc; reflexivity.
Qed.

Lemma C9_repositories_key_is_mandatory_witness :
  MultiRepoFetch plain_fs plain_deps (EMap [("main", EString "a")])
    fetch_arguments = Ret kExitFetchError /\
  MultiRepoFetch plain_fs plain_deps (EMap [("repositories", EMap [])])
    fetch_arguments = Ret kExitSuccess.
Proof.
  split.
  - apply (proj1 (C9_repositories_key_is_mandatory plain_fs plain_deps
                    [("main", EString "a")] fetch_arguments)).
    left; reflexivity.
  - apply (proj2 (C9_repositories_key_is_mandatory plain_fs plain_deps
                    [("repositories", EMap [])] fetch_arguments) "/dist");
      try reflexivity.
    right; reflexivity.
Defined.

(** ** Locations with an unknown root *)

Lemma Find_FromJson (m : list (string * Json)) (k : string) :
  Find (List.map (fun kv => (fst kv, FromJson (snd kv))) m) k
  = option_map FromJson (json_find m k).
Proof.
  induction m as [|[k' v] r IH]; simpl; [reflexivity|].
  destruct (String.eqb k' k); [reflexivity | exact IH].
Qed.





(** ** The git-tree fetch map *)

Ltac unfold_run :=
  unfold run, tree_to_cache, after_init, retrieve_from_remote, move_from_cas,
    run_generator, after_commit, check_tree_exists, fetch_via_tmp_repo,
    ConsumeAfterKeysReady, fail, emit, call, pure, stop, remote_hit in *.

Ltac probed H :=
  let r := fresh "r" in
  let He := fresh "He" in
  let Ho := fresh "Ho" in
  let Hc := fresh "Hc" in
  destruct H as [[r He] [Ho Hc]];
  unfold_run; rewrite He; simpl; rewrite Ho; simpl; rewrite Hc; simpl.

(** C1: when the probe of the Git cache finds the declared tree, the run
    consists of the initialisation request, the opening of the cache, the
    probe and the setting of the value to "cache hit": the command is not
    run, the remote CAS is not asked and the progress tracker is not
    touched. *)
Theorem C1_cache_hit (dump : list string -> string) (cfg : MapConfig)
  (w : World) (key : GitTreeInfo) (cas : GitCASPtr) :
  cache_probed w cas true ->
  run dump cfg w key
  = [CriticalGitOp
       (mkGitOpKey
          (mkGitOpParams (GitRoot cfg) EmptyString EmptyString None
                         (Some true))
          ENSURE_INIT);
     OpenRepo cas;
     CheckTreeExists cas (hash key);
     SetValue true] /\
  key_state (run dump cfg w key) = Ready true /\
  count is_execute (run dump cfg w key) = 0 /\
  count is_remote (run dump cfg w key) = 0 /\
  count is_tracker (run dump cfg w key) = 0.
Proof. intros H; probed H; repeat split. Qed.

Lemma C1_cache_hit_witness :
  run words with_remote (smooth_world true false) tree_key
  = [CriticalGitOp
       (mkGitOpKey
          (mkGitOpParams "/build/git" EmptyString EmptyString None
                         (Some true))
          ENSURE_INIT);
     OpenRepo (Some "/build/git");
     CheckTreeExists (Some "/build/git") (hash tree_key);
     SetValue true] /\
  key_state (run words with_remote (smooth_world true false) tree_key)
  = Ready true /\
  count is_execute (run words with_remote (smooth_world true false) tree_key)
  = 0 /\
  count is_remote (run words with_remote (smooth_world true false) tree_key)
  = 0 /\
  count is_tracker (run words with_remote (smooth_world true false) tree_key)
  = 0.
Proof.
  apply (C1_cache_hit words with_remote (w := smooth_world true false)
           tree_key (cas := Some "/build/git")).
  split; [exists EmptyString; reflexivity | split; reflexivity].
Defined.

(** C2 (as stated) fails: when the remote CAS delivers the tree, the task is
    stopped at once, and a later failure (here: no temporary directory)
    leaves a failed key whose origin has been stopped. *)
Lemma C2_stop_before_failure :
  cache_probed no_tmp_for_remote (Some "/build/git") false /\
  key_state (run words with_remote no_tmp_for_remote tree_key) = Failed /\
  count (is_stop (origin tree_key))
        (run words with_remote no_tmp_for_remote tree_key) = 1.
Proof.
  split; [|split; reflexivity].
  split; [exists EmptyString; reflexivity | split; reflexivity].
Qed.

(** Split on everything that a run branches on, innermost first. *)
Ltac goal_cases :=
  repeat (cbn -[String.append mismatch_message];
          match goal with
          | |- context [match ?x with _ => _ end] =>
              lazymatch x with
              | context [match _ with _ => _ end] => fail
              | _ => destruct x eqn:?
              end
          end).

Ltac use_equations :=
  repeat match goal with
         | E : ?x = _ |- context [?x] => rewrite E
         end.

Ltac break_hyps :=
  repeat match goal with
         | H : _ /\ _ |- _ => destruct H
         | H : exists _, _ |- _ => destruct H
         end.

Ltac split_flags :=
  repeat match goal with
         | |- context [match ?x with _ => _ end] => is_var x; destruct x
         | H : context [match ?x with _ => _ end] |- _ => is_var x; destruct x
         end.

Ltac leaf :=
  cbn -[String.append mismatch_message]; use_equations;
  rewrite ?String.eqb_refl; cbn -[String.append mismatch_message];
  split_flags; cbn -[String.append mismatch_message];
  repeat split; intros; break_hyps;
  try reflexivity; try discriminate;
  try match goal with
      | H : forall b, Ready ?c <> Ready b |- _ =>
          exfalso; apply (H c); reflexivity
      end.

Ltac settle :=
  repeat match goal with
         | v : GitOpValue |- _ => destruct v; simpl in *
         | H : negb ?b = _ |- _ =>
             is_var b; destruct b; simpl in H; try discriminate H
         end;
  subst; try discriminate; try congruence; eauto.

(** C2 (amended): on a miss of the Git cache the tracker is started for the
    origin of the key exactly once, right after the probe (the fourth event
    of the run), and no other origin is touched.  The origin is stopped
    exactly once on every successful run.  When the remote CAS has delivered
    the tree, the origin is stopped exactly once and at once: the stop is
    the event that follows the retrieval request, before the temporary
    directory, the copy and the import, so that it is there even if one of
    them fails.  When the remote CAS did not deliver the tree, a successful
    run stops the origin directly before it sets the value, and a run that
    does not end in a value never stops the origin. *)
Theorem C2_tracker_start_stop (dump : list string -> string)
  (cfg : MapConfig) (w : World) (key : GitTreeInfo) (cas : GitCASPtr) :
  cache_probed w cas false ->
  nth_error (run dump cfg w key) 3 = Some (TrackerStart (origin key)) /\
  count (is_start (origin key)) (run dump cfg w key) = 1 /\
  count is_tracker (run dump cfg w key)
  = 1 + count (is_stop (origin key)) (run dump cfg w key) /\
  (forall b, key_state (run dump cfg w key) = Ready b ->
             count (is_stop (origin key)) (run dump cfg w key) = 1) /\
  (remote_hit cfg key = true ->
   count (is_stop (origin key)) (run dump cfg w key) = 1 /\
   nth_error (run dump cfg w key) 5 = Some (retrieve_request key) /\
   nth_error (run dump cfg w key) 6 = Some (TrackerStop (origin key))) /\
  (remote_hit cfg key = false ->
   (forall b, key_state (run dump cfg w key) = Ready b ->
              last_two (run dump cfg w key)
              = [SetValue b; TrackerStop (origin key)]) /\
   ((forall b, key_state (run dump cfg w key) <> Ready b) ->
    count (is_stop (origin key)) (run dump cfg w key) = 0)).
Proof.
  intros [[r He] [Ho Hc]].
  change (tracker_law cfg key (run dump cfg w key)).
  destruct cfg as [root bin lau loc rem]; destruct w;
    simpl in He, Ho, Hc; subst.
  unfold_run; goal_cases;
    unfold tracker_law, remote_hit, retrieve_request, last_two, count; leaf;
    match goal with
    | H : Ready _ = Ready _ |- _ => inversion H; reflexivity
    end.
Qed.

Lemma C2_tracker_start_stop_witness :
  nth_error (run words with_remote no_tmp_for_remote tree_key) 3
  = Some (TrackerStart (origin tree_key)) /\
  count (is_start (origin tree_key))
        (run words with_remote no_tmp_for_remote tree_key) = 1 /\
  count is_tracker (run words with_remote no_tmp_for_remote tree_key)
  = 1 + count (is_stop (origin tree_key))
              (run words with_remote no_tmp_for_remote tree_key) /\
  (forall b,
     key_state (run words with_remote no_tmp_for_remote tree_key) = Ready b ->
     count (is_stop (origin tree_key))
           (run words with_remote no_tmp_for_remote tree_key) = 1) /\
  (remote_hit with_remote tree_key = true ->
   count (is_stop (origin tree_key))
         (run words with_remote no_tmp_for_remote tree_key) = 1 /\
   nth_error (run words with_remote no_tmp_for_remote tree_key) 5
   = Some (retrieve_request tree_key) /\
   nth_error (run words with_remote no_tmp_for_remote tree_key) 6
   = Some (TrackerStop (origin tree_key))) /\
  (remote_hit with_remote tree_key = false ->
   (forall b,
      key_state (run words with_remote no_tmp_for_remote tree_key)
      = Ready b ->
      last_two (run words with_remote no_tmp_for_remote tree_key)
      = [SetValue b; TrackerStop (origin tree_key)]) /\
   ((forall b,
       key_state (run words with_remote no_tmp_for_remote tree_key)
       <> Ready b) ->
    count (is_stop (origin tree_key))
          (run words with_remote no_tmp_for_remote tree_key) = 0)).
Proof.
  apply (C2_tracker_start_stop words with_remote (w := no_tmp_for_remote)
           tree_key (cas := Some "/build/git")).
  split; [exists EmptyString; reflexivity | split; reflexivity].
Defined.

(** C3 (as stated) fails: the command was run and the repository made from
    its output contains the declared tree, but the keep tag cannot be
    written and the key fails. *)
Lemma C3_verified_tree_yet_failed :
  generator_executed local_only keep_tag_fails tree_key (Some "/build/git")
    (mkExecOutput 1 "/tmp/out/stdout" "/tmp/out/stderr") /\
  tree_verified keep_tag_fails true /\
  key_state (run words local_only keep_tag_fails tree_key) = Failed.
Proof.
  split; [|split].
  - split; [|reflexivity].
    split; [|split; [|split]].
    + split; [exists EmptyString; reflexivity | split; reflexivity].
    + reflexivity.
    + exists "/tmp/work"; reflexivity.
    + exists "/tmp/out"; reflexivity.
  - split; [exists (Some "/tmp/work"), "c0ffee"; reflexivity
           | split; reflexivity].
  - reflexivity.
Qed.

(** C3 (amended): for a key whose generator command is started, a command
    that cannot be launched makes the key fail; for a command that was run,
    the value "no cache hit" is set if and only if the repository made from
    its output contains the declared tree and the later stages (opening the
    Git cache, the temporary repository, the fetch into the Git cache and
    the keep tag) succeed; "cache hit" is never set.  When the tree is found
    and a later stage fails, the key fails, unless the failure is one that
    the keep-tag request reported as not fatal (the key then gets no value).
    A missing tree makes the key fail.  The exit status of the command has
    no influence on the run. *)
Theorem C3_generator_verification (dump : list string -> string)
  (cfg : MapConfig) (w : World) (key : GitTreeInfo) (cas : GitCASPtr) :
  generator_started cfg w key cas ->
  (w_execute w = None -> key_state (run dump cfg w key) = Failed) /\
  (w_execute w <> None ->
   (key_state (run dump cfg w key) = Ready false ->
    tree_verified w true /\ imported_to_cache w) /\
   key_state (run dump cfg w key) <> Ready true /\
   (tree_verified w true -> imported_to_cache w ->
    key_state (run dump cfg w key) = Ready false) /\
   (tree_verified w true -> ~ imported_to_cache w ->
    (forall msg, w_keep_tag w <> KeyFailed msg false) ->
    key_state (run dump cfg w key) = Failed) /\
   (tree_verified w false -> key_state (run dump cfg w key) = Failed)) /\
  (forall rv, run dump cfg (with_return_value w rv) key = run dump cfg w key).
Proof.
  intros [[[r He] [Ho Hc]] [Hr [[d Hd] [od Hod]]]].
  assert (G : generator_law w (run dump cfg w key)).
  { destruct cfg as [root bin lau loc rem]; destruct w;
      simpl in He, Ho, Hc, Hd, Hod; subst.
    unfold remote_hit in Hr; simpl in Hr.
    unfold_run; goal_cases;
      unfold generator_law, tree_verified, imported_to_cache;
      try (exfalso; use_equations;
           repeat match goal with
                  | E : ?x = _, H : context [?x] |- _ => rewrite E in H
                  end; discriminate);
      leaf; settle;
      try (left; reflexivity);
      try (right; left; reflexivity);
      try (right; right; eexists; reflexivity). }
  destruct G as [G1 G2].
  split; [exact G1|]; split.
  { intros Hx; destruct (G2 Hx) as [Ga [Gb [Gc [Gd Ge]]]].
    split; [exact Ga|]; split; [exact Gb|]; split; [exact Gc|].
    split; [|exact Ge].
    intros Htv Hni Hnf; destruct (Gd Htv) as [H|[H|[msg H]]].
    - exfalso; apply Hni; apply (Ga H).
    - exact H.
    - exfalso; exact (Hnf msg H). }
  intros rv; unfold run, with_return_value, tree_to_cache,
    ConsumeAfterKeysReady; simpl; rewrite He; cbn [pbind emit call fst].
  unfold after_init; simpl; rewrite Ho, Hc; simpl.
  destruct (retrieve_from_remote cfg (mkDigest (hash key) 0 true))
    as [t [[l|]|]]; simpl; try reflexivity.
  unfold run_generator; simpl; rewrite Hd, Hod.
  destruct (w_execute w); reflexivity.
Qed.

Lemma C3_generator_verification_witness :
  (w_execute (smooth_world false true) = None ->
   key_state (run words local_only (smooth_world false true) tree_key)
   = Failed) /\
  (w_execute (smooth_world false true) <> None ->
   (key_state (run words local_only (smooth_world false true) tree_key)
    = Ready false ->
    tree_verified (smooth_world false true) true /\
    imported_to_cache (smooth_world false true)) /\
   key_state (run words local_only (smooth_world false true) tree_key)
   <> Ready true /\
   (tree_verified (smooth_world false true) true ->
    imported_to_cache (smooth_world false true) ->
    key_state (run words local_only (smooth_world false true) tree_key)
    = Ready false) /\
   (tree_verified (smooth_world false true) true ->
    ~ imported_to_cache (smooth_world false true) ->
    (forall msg,
       w_keep_tag (smooth_world false true) <> KeyFailed msg false) ->
    key_state (run words local_only (smooth_world false true) tree_key)
    = Failed) /\
   (tree_verified (smooth_world false true) false ->
    key_state (run words local_only (smooth_world false true) tree_key)
    = Failed)) /\
  (forall rv,
     run words local_only (with_return_value (smooth_world false true) rv)
       tree_key
     = run words local_only (smooth_world false true) tree_key).
Proof.
  apply (@C3_generator_verification words local_only
           (smooth_world false true) tree_key (Some "/build/git")).
  split; [|split; [|split]].
  - split; [exists EmptyString; reflexivity | split; reflexivity].
  - reflexivity.
  - exists "/tmp/work"; reflexivity.
  - exists "/tmp/out"; reflexivity.
Defined.

(** ** The message of a failed verification *)

Lemma append_assoc (a b c : string) : (a +++ b) +++ c = a +++ (b +++ c).
Proof. induction a as [|x a IH]; simpl; [reflexivity | rewrite IH; reflexivity]. Qed.

Lemma append_empty_r (a : string) : a +++ EmptyString = a.
Proof. induction a as [|x a IH]; simpl; [reflexivity | rewrite IH; reflexivity]. Qed.

Lemma occurs_in_here (s after : string) : occurs_in s (s +++ after).
Proof. exists EmptyString, after; reflexivity. Qed.

Lemma occurs_in_end (before s : string) : occurs_in s (before +++ s).
Proof. exists before, EmptyString; rewrite append_empty_r; reflexivity. Qed.

Lemma occurs_in_after (a s t : string) :
  occurs_in s t -> occurs_in s (a +++ t).
Proof.
  intros [before [after E]]; exists (a +++ before), after; subst.
  symmetry; apply append_assoc.
Qed.

Lemma occurs_in_empty (t : string) : occurs_in EmptyString t.
Proof. exists EmptyString, t; reflexivity. Qed.

Lemma mismatch_message_contains (dump : list string -> string)
  (cmdline : list string) (tree_id : string) (cmd_out cmd_err : option string) :
  occurs_in (dump cmdline)
    (mismatch_message dump cmdline tree_id cmd_out cmd_err) /\
  (forall s, cmd_out = Some s ->
     occurs_in s (mismatch_message dump cmdline tree_id cmd_out cmd_err)) /\
  (forall s, cmd_err = Some s ->
     occurs_in s (mismatch_message dump cmdline tree_id cmd_out cmd_err)).
Proof.
  unfold mismatch_message; split; [|split].
  - apply occurs_in_after, occurs_in_here.
  - intros s E; subst; simpl value_or_empty.
    destruct s as [|c s]; [apply occurs_in_empty|].
    assert (Hne : string_empty (String c s) = false) by reflexivity.
    remember (String c s) as s0; rewrite Hne.
    simpl negb; simpl orb; cbv iota.
    do 8 apply occurs_in_after; apply occurs_in_here.
  - intros s E; subst; simpl value_or_empty.
    destruct s as [|c s]; [apply occurs_in_empty|].
    assert (Hne : string_empty (String c s) = false) by reflexivity.
    remember (String c s) as s0; rewrite Hne.
    simpl negb; rewrite orb_true_r; cbv iota.
    do 8 apply occurs_in_after; apply occurs_in_end.
Qed.

(** C4: when the generator command was run and the repository made from its
    output does not contain the declared tree, the key fails fatally with
    one message, and this message contains the JSON form of the command line
    that was executed and whatever was read back from the files of standard
    output and standard error of the command. *)
Theorem C4_mismatch_diagnostic (dump : list string -> string)
  (cfg : MapConfig) (w : World) (key : GitTreeInfo) (cas : GitCASPtr)
  (out : ExecOutput) :
  generator_executed cfg w key cas out ->
  tree_verified w false ->
  key_state (run dump cfg w key) = Failed /\
  (exists env cwd od,
     In (Execute (launcher cfg ++ command key) env cwd od)
        (run dump cfg w key)) /\
  exists msg,
    fatal_messages (run dump cfg w key) = [msg] /\
    occurs_in (dump (launcher cfg ++ command key)) msg /\
    (forall s, w_read_file w (stdout_file out) = Some s -> occurs_in s msg) /\
    (forall s, w_read_file w (stderr_file out) = Some s -> occurs_in s msg).
Proof.
  intros [[[[r He] [Ho Hc]] [Hr [[d Hd] [od Hod]]]] Hx]
         [[cas' [c Hi]] [Hot Hct]].
  assert (Hrem : exists t,
             retrieve_from_remote cfg (mkDigest (hash key) 0 true)
             = (t, Some None) /\ key_state t = Pending /\
             fatal_messages t = [] /\
             forall rest, key_state (t ++ rest) = key_state rest).
  { unfold remote_hit in Hr; unfold retrieve_from_remote, call, pure.
    destruct (remote_api cfg) as [rem|]; [|exists []; repeat split].
    destruct (local_api cfg) as [loc|]; [|exists []; repeat split].
    simpl.
    destruct (IsAvailable rem (mkDigest (hash key) 0 true)); simpl in *;
      [|eexists; repeat split].
    rewrite Hr; eexists; repeat split. }
  destruct Hrem as [t [Ht [Hk [Hf Hks]]]].
  pose proof (mismatch_message_contains dump (launcher cfg ++ command key)
                (hash key) (w_read_file w (stdout_file out))
                (w_read_file w (stderr_file out))) as [M1 [M2 M3]].
  unfold run, tree_to_cache, ConsumeAfterKeysReady, after_init,
    check_tree_exists, emit, call, pure.
  rewrite He; cbn -[String.append mismatch_message retrieve_from_remote
                    run_generator].
  rewrite Ho, Hc; cbn -[String.append mismatch_message retrieve_from_remote
                        run_generator].
  rewrite Ht; cbn -[String.append mismatch_message run_generator].
  unfold run_generator, ConsumeAfterKeysReady, after_commit,
    check_tree_exists, fail, emit, call, pure, stop.
  rewrite Hd; cbn -[String.append mismatch_message].
  rewrite Hod; cbn -[String.append mismatch_message].
  rewrite Hx; cbn -[String.append mismatch_message].
  rewrite Hi; cbn -[String.append mismatch_message].
  rewrite Hot, Hct; cbn -[String.append mismatch_message].
  split; [|split].
  - rewrite Hks; reflexivity.
  - do 3 eexists; do 4 right; apply in_or_app; right.
    do 2 right; left; reflexivity.
  - eexists; split; [|split; [exact M1 | split; [exact M2 | exact M3]]].
    unfold fatal_messages; rewrite flat_map_app.
    fold (fatal_messages t); rewrite Hf; reflexivity.
Qed.

Lemma C4_mismatch_diagnostic_witness :
  key_state (run words local_only (smooth_world false false) tree_key)
  = Failed /\
  (exists env cwd od,
     In (Execute (launcher local_only ++ command tree_key) env cwd od)
        (run words local_only (smooth_world false false) tree_key)) /\
  exists msg,
    fatal_messages (run words local_only (smooth_world false false) tree_key)
    = [msg] /\
    occurs_in (words (launcher local_only ++ command tree_key)) msg /\
    (forall s,
       w_read_file (smooth_world false false) "/tmp/out/stdout" = Some s ->
       occurs_in s msg) /\
    (forall s,
       w_read_file (smooth_world false false) "/tmp/out/stderr" = Some s ->
       occurs_in s msg).
Proof.
  apply (@C4_mismatch_diagnostic words local_only (smooth_world false false)
           tree_key (Some "/build/git")
           (mkExecOutput 1 "/tmp/out/stdout" "/tmp/out/stderr")).
  - split; [|reflexivity].
    split; [|split; [|split]].
    + split; [exists EmptyString; reflexivity | split; reflexivity].
    + reflexivity.
    + exists "/tmp/work"; reflexivity.
    + exists "/tmp/out"; reflexivity.
  - split; [exists (Some "/tmp/work"), "c0ffee"; reflexivity
           | split; reflexivity].
Defined.

(* ================================================================== *)
(** * Further properties *)

(** ** The closure is the set of reachable names *)

Lemma traverse_bindings m name d b bm :
  Get (EMap m) name = Ret d -> Get d "bindings" = Ret b ->
  IsNotNull b && IsMap b = true -> Map b = Ret bm ->
  bound_names m name
  = flat_map (fun v => match v with EString s => [s] | _ => [] end)
             (Values bm).
Proof.
  rewrite Get_map; intros Hd Hb Hc Hm; inversion Hd as [E]; clear Hd.
  unfold bound_names.
  destruct (Find m name) as [d'|]; subst d; [|discriminate Hb].
  destruct d'; try discriminate Hb.
  rewrite Get_map in Hb; inversion Hb as [E']; clear Hb.
  destruct (Find m0 "bindings") as [b'|]; subst b; [|discriminate Hc].
  destruct b'; try discriminate Hc; try discriminate Hm.
  inversion Hm; reflexivity.
Qed.

Lemma traverse_no_bindings m name d :
  Get (EMap m) name = Ret d ->
  IsNotNull d = false \/
  (exists b, Get d "bindings" = Ret b /\ IsNotNull b && IsMap b = false) ->
  bound_names m name = [].
Proof.
  rewrite Get_map; intros Hd H; inversion Hd as [E]; clear Hd.
  unfold bound_names.
  destruct (Find m name) as [d'|]; [|reflexivity]; subst d.
  destruct d'; try reflexivity.
  destruct H as [H|[b [Hb Hc]]]; [discriminate H|].
  rewrite Get_map in Hb; inversion Hb as [E']; clear Hb.
  destruct (Find m0 "bindings") as [b'|]; [|reflexivity]; subst b.
  destruct b'; try reflexivity; discriminate Hc.
Qed.

Lemma string_value_bound (bm : list (string * Expression)) bound s :
  In bound (Values bm) -> StringOf bound = Ret s ->
  In s (flat_map (fun v => match v with EString s => [s] | _ => [] end)
                 (Values bm)).
Proof.
  intros Hin Hs; apply in_flat_map; exists bound; split; [exact Hin|].
  destruct bound; try discriminate Hs; inversion Hs; left; reflexivity.
Qed.

Lemma traverse_reaches m main : forall fuel name inc inc',
  (forall x, In x inc -> reachable m main x) ->
  reachable m main name ->
  traverse fuel (EMap m) name inc = Ret inc' ->
  forall x, In x inc' -> reachable m main x.
Proof.
  induction fuel as [|fuel IH]; intros name inc inc' Hinc Hname Hrun;
    [discriminate|].
  simpl in Hrun.
  destruct (contains inc name); [inversion Hrun; subst; exact Hinc|].
  assert (Hinc1 : forall x, In x (inc ++ [name]) -> reachable m main x).
  { intros x Hx; apply in_app_or in Hx; destruct Hx as [Hx|[Hx|[]]];
      [apply Hinc; exact Hx | subst; exact Hname]. }
  destruct (Get (EMap m) name) as [d| | | |] eqn:Hd; simpl in Hrun;
    try discriminate.
  destruct (IsNotNull d); simpl in Hrun;
    [|inversion Hrun; subst; exact Hinc1].
  destruct (Get d "bindings") as [b| | | |] eqn:Hb; simpl in Hrun;
    try discriminate.
  destruct (IsNotNull b && IsMap b) eqn:Hc;
    [|inversion Hrun; subst; exact Hinc1].
  destruct (Map b) as [bm| | | |] eqn:Hm; simpl in Hrun; try discriminate.
  pose proof (@traverse_bindings m name d b bm Hd Hb Hc Hm) as Hbn.
  revert Hrun;
    apply (for_each_invariant
             (fun s => forall x, In x s -> reachable m main x));
    [|exact Hinc1].
  intros bound s s' Hin Hs Hbody.
  destruct (IsNotNull bound && IsString bound).
  - destruct (StringOf bound) as [n| | | |] eqn:Hn; simpl in Hbody;
      try discriminate.
    apply (IH n s s'); auto.
    apply reach_bound with (x := name); [exact Hname|].
    rewrite Hbn; eapply string_value_bound; eauto.
  - inversion Hbody; subst; exact Hs.
Qed.

Lemma closed_but_push m stack inc name :
  closed_but m stack inc ->
  closed_but m (name :: stack) (inc ++ [name]).
Proof.
  intros H x Hx; apply in_app_or in Hx; destruct Hx as [Hx|[Hx|[]]].
  - destruct (H x Hx) as [Hs|Hc]; [left; right; exact Hs|].
    right; intros y Hy; apply in_or_app; left; apply Hc; exact Hy.
  - left; left; exact Hx.
Qed.

Lemma closed_but_pop m stack inc name :
  closed_but m (name :: stack) inc ->
  (forall y, In y (bound_names m name) -> In y inc) ->
  closed_but m stack inc.
Proof.
  intros H Hname x Hx; destruct (H x Hx) as [[E|Hs]|Hc].
  - subst; right; exact Hname.
  - left; exact Hs.
  - right; exact Hc.
Qed.

Lemma traverse_closes m : forall fuel name inc inc' stack,
  closed_but m stack inc ->
  traverse fuel (EMap m) name inc = Ret inc' ->
  closed_but m stack inc' /\ In name inc'.
Proof.
  induction fuel as [|fuel IH]; intros name inc inc' stack Hcl Hrun;
    [discriminate|].
  pose proof (@traverse_grows _ _ _ _ _ Hrun) as [_ Hin].
  split; [|exact Hin].
  simpl in Hrun.
  destruct (contains inc name) eqn:Hc; [inversion Hrun; subst; exact Hcl|].
  pose proof (@closed_but_push m stack inc name Hcl) as Hpush.
  destruct (Get (EMap m) name) as [d| | | |] eqn:Hd; simpl in Hrun;
    try discriminate.
  destruct (IsNotNull d) eqn:Hnn; simpl in Hrun.
  2: { inversion Hrun; subst; apply closed_but_pop with (name := name);
         [exact Hpush|].
       rewrite (@traverse_no_bindings m name d Hd); [intros y []|left; exact Hnn]. }
  destruct (Get d "bindings") as [b| | | |] eqn:Hb; simpl in Hrun;
    try discriminate.
  destruct (IsNotNull b && IsMap b) eqn:Hbm.
  2: { inversion Hrun; subst; apply closed_but_pop with (name := name);
         [exact Hpush|].
       rewrite (@traverse_no_bindings m name d Hd); [intros y []|].
       right; exists b; split; [exact Hb | exact Hbm]. }
  destruct (Map b) as [bm| | | |] eqn:Hm; simpl in Hrun; try discriminate.
  pose proof (@traverse_bindings m name d b bm Hd Hb Hbm Hm) as Hbn.
  assert (Hloop : forall l s0 s2,
            closed_but m (name :: stack) s0 ->
            for_each l s0
              (fun bound inc0 =>
                 if IsNotNull bound && IsString bound
                 then s <- StringOf bound ;; traverse fuel (EMap m) s inc0
                 else Ret inc0) = Ret s2 ->
            closed_but m (name :: stack) s2 /\
            forall y,
              In y (flat_map (fun v => match v with
                                       | EString s => [s]
                                       | _ => []
                                       end) l) ->
              In y s2).
  { induction l as [|bound l IHl]; intros s0 s2 Hs0 Hl; simpl in Hl.
    - inversion Hl; subst; split; [exact Hs0 | intros y []].
    - destruct (IsNotNull bound && IsString bound) eqn:Hbs.
      + destruct bound; try discriminate Hbs; simpl in Hl.
        destruct (traverse fuel (EMap m) s s0) as [s1| | | |] eqn:Ht;
          simpl in Hl; try discriminate.
        destruct (@IH _ _ _ _ Hs0 Ht) as [Hs1 Hin1].
        destruct (@IHl _ _ Hs1 Hl) as [Hs2 Hrest].
        split; [exact Hs2|].
        intros y [E|Hy]; [subst y | apply Hrest; exact Hy].
        assert (Hg : grown s1 s2).
        { revert Hl; apply for_each_invariant; [|apply grown_refl].
          intros x t t' _ Ht0 Hx.
          destruct (IsNotNull x && IsString x).
          - destruct (StringOf x) as [n| | | |]; simpl in Hx;
              try discriminate.
            apply traverse_grows in Hx; destruct Hx as [Hg _].
            eapply grown_trans; eauto.
          - inversion Hx; subst; exact Ht0. }
        eapply grown_In; eauto.
      + simpl in Hl.
        destruct (@IHl _ _ Hs0 Hl) as [Hs2 Hrest].
        split; [exact Hs2|].
        intros y Hy; apply Hrest.
        destruct bound; simpl in Hy; try exact Hy; discriminate Hbs. }
  destruct (@Hloop _ _ _ Hpush Hrun) as [Hcl2 Hall].
  apply closed_but_pop with (name := name); [exact Hcl2|].
  rewrite Hbn; exact Hall.
Qed.

(** X1: after [ReachableRepositories] the list to_include holds exactly the
    names that can be reached from main along string-valued bindings. *)
Theorem reachable_iff_included m main sr r :
  ReachableRepositories (EMap m) main sr = Ret r ->
  forall x, In x (to_include r) <-> reachable m main x.
Proof.
  intros Hrun x; apply reachable_unfold in Hrun; destruct Hrun as [Ht _].
  split.
  - revert x; eapply traverse_reaches; [| |exact Ht].
    + intros y [].
    + apply reach_main.
  - assert (H0 : closed_but m [] []) by (intros y []).
    destruct (@traverse_closes m _ _ _ _ _ H0 Ht) as [Hcl Hmain].
    induction 1 as [|y z _ IH Hz]; [exact Hmain|].
    destruct (Hcl y IH) as [[]|Hc]; apply Hc; exact Hz.
Qed.

Lemma reachable_iff_included_witness :
  ReachableRepositories (EMap cyclic_bindings) "a" (mkSetupRepos [] [])
  = Ret (mkSetupRepos ["a"; "b"] ["a"; "b"]) /\
  forall x, In x ["a"; "b"] <-> reachable cyclic_bindings "a" x.
Proof.
  split; [reflexivity|].
  exact (reachable_iff_included cyclic_bindings "a" (mkSetupRepos [] [])
           (r := mkSetupRepos ["a"; "b"] ["a"; "b"]) eq_refl).
Defined.

(** ** The fetch subcommand: exit codes and gathered repositories *)

Lemma gather_repo_result fs deps repos name r :
  gather_repo fs deps repos name = Ret r ->
  match r with
  | inl code => code = kExitFetchError
  | inr None => True
  | inr (Some a) =>
      kCheckoutTypeMap deps (repo_type a) = Some Archive /\
      subdir a <> EmptyString
  end.
Proof.
  unfold gather_repo.
  destruct (At repos name) as [[repo_desc|]| | | |]; simpl;
    try discriminate; [|intros H; inversion H; reflexivity].
  destruct (At repo_desc "repository") as [[repo|]| | | |]; simpl;
    try discriminate; [|intros H; inversion H; reflexivity].
  destruct (ResolveRepo deps repo repos) as [resolved|];
    [|intros H; inversion H; reflexivity].
  destruct (At resolved "type") as [[rt|]| | | |]; simpl;
    try discriminate; [|intros H; inversion H; reflexivity].
  destruct (IsString rt); simpl; [|intros H; inversion H; reflexivity].
  destruct (StringOf rt) as [rts| | | |]; simpl; try discriminate.
  destruct (kCheckoutTypeMap deps rts) as [ct|] eqn:Hct;
    [|intros H; inversion H; reflexivity].
  destruct ct; try (intros H; inversion H; exact I).
  destruct (At resolved "content") as [[rc|]| | | |]; simpl;
    try discriminate; [|intros H; inversion H; reflexivity].
  destruct (IsString rc); simpl; [|intros H; inversion H; reflexivity].
  destruct (At resolved "fetch") as [[rf|]| | | |]; simpl;
    try discriminate; [|intros H; inversion H; reflexivity].
  destruct (IsString rf); simpl; [|intros H; inversion H; reflexivity].
  destruct (Get resolved "subdir") as [sd| | | |]; simpl; try discriminate.
  destruct (Get resolved "distfile") as [df| | | |]; simpl; try discriminate.
  destruct (Get resolved "sha256") as [s2| | | |]; simpl; try discriminate.
  destruct (Get resolved "sha512") as [s5| | | |]; simpl; try discriminate.
  destruct (StringOf rc) as [cs| | | |]; simpl; try discriminate.
  destruct (StringOf rf) as [fs'| | | |]; simpl; try discriminate.
  intros H; inversion H; subst; simpl; split; [exact Hct|].
  destruct (String.eqb_spec (lexically_normal fs (string_or_empty sd))
                            EmptyString) as [E|E];
    [discriminate | exact E].
Qed.

Lemma gather_repos_result fs deps repos : forall names acc r,
  gather_repos fs deps repos names acc = Ret r ->
  match r with
  | inl code => code = kExitFetchError
  | inr l =>
      exists added,
        l = acc ++ added /\
        List.length added <= List.length names /\
        Forall (fun a => kCheckoutTypeMap deps (repo_type a) = Some Archive /\
                         subdir a <> EmptyString) added
  end.
Proof.
  induction names as [|n rest IH]; intros acc r Hrun; simpl in Hrun.
  - inversion Hrun; exists []; rewrite app_nil_r; repeat split; auto.
  - destruct (gather_repo fs deps repos n) as [g| | | |] eqn:Hg;
      simpl in Hrun; try discriminate.
    apply gather_repo_result in Hg.
    destruct g as [code|[a|]].
    + inversion Hrun; exact Hg.
    + apply IH in Hrun; destruct r as [code|l]; [exact Hrun|].
      destruct Hrun as [added [E [Hlen Hall]]].
      exists (a :: added); rewrite <- app_assoc in E; simpl in *.
      repeat split; [exact E | lia | constructor; assumption].
    + apply IH in Hrun; destruct r as [code|l]; [exact Hrun|].
      destruct Hrun as [added [E [Hlen Hall]]].
      exists added; repeat split; [exact E | simpl; lia | exact Hall].
Qed.

(** X2: the list of repositories to fetch holds at most one entry per
    repository name, each of a type that the checkout table maps to an
    archive and each with a non-empty subdirectory. *)
Theorem gathered_are_archives fs deps repos names l :
  gather_repos fs deps repos names [] = Ret (inr l) ->
  List.length l <= List.length names /\
  Forall (fun a => kCheckoutTypeMap deps (repo_type a) = Some Archive /\
                   subdir a <> EmptyString) l.
Proof.
  intros H; apply gather_repos_result in H.
  destruct H as [added [E [Hlen Hall]]]; simpl in E; subst; split; assumption.
Qed.

(** X3: when [MultiRepoFetch] returns, it returns the success code or the
    fetch error code, whatever the configuration and the arguments. *)
Theorem fetch_exit_codes fs deps config arguments code :
  MultiRepoFetch fs deps config arguments = Ret code ->
  code = kExitSuccess \/ code = kExitFetchError.
Proof.
  unfold MultiRepoFetch.
  destruct (find_fetch_dir fs arguments) as [d|];
    [|intros H; inversion H; right; reflexivity].
  destruct (Get config "repositories") as [repos| | | |]; simpl;
    try discriminate.
  destruct (IsNotNull repos); simpl;
    [|intros H; inversion H; right; reflexivity].
  destruct (fetch_closure fs repos arguments d) as [fr| | | |]; simpl;
    try discriminate.
  destruct (CreateDirectory fs d); simpl;
    [|intros H; inversion H; right; reflexivity].
  destruct (gather_repos fs deps repos (to_include fr) []) as [g| | | |]
    eqn:Hg; simpl; try discriminate.
  apply gather_repos_result in Hg.
  destruct g as [c|l].
  - intros H; inversion H; subst; right; reflexivity.
  - destruct (fetch_failed (List.map (repo_fetch deps) l));
      intros H; inversion H; auto.
Qed.

Lemma find_none {A : Type} (f : A -> bool) (l : list A) :
  Forall (fun x => f x = false) l -> find f l = None.
Proof.
  induction 1 as [|x r Hx _ IH]; simpl; [reflexivity|].
  rewrite Hx; exact IH.
Qed.

(** X4: without a fetch directory on the command line and without an
    existing distribution directory the fetch subcommand ends in the fetch
    error code before it looks at the configuration. *)
Theorem no_fetch_directory fs deps config arguments :
  fetch_dir (fetch arguments) = None ->
  Forall (fun d => IsDirectory fs d = false)
         (distdirs (just_mr_paths (common arguments))) ->
  MultiRepoFetch fs deps config arguments = Ret kExitFetchError.
Proof.
  intros Hf Hd; unfold MultiRepoFetch, find_fetch_dir.
  rewrite Hf, (find_none _ Hd); reflexivity.
Qed.

(** X5: when the main repository named on the command line has no entry in
    the repositories mapping, the closure consists of that name alone and
    the fetch subcommand (with a fetch directory outside of the workspace)
    ends in the fetch error code. *)
Theorem unknown_main_is_fetch_error fs deps cfg m arguments d mn :
  Find cfg "repositories" = Some (EMap m) ->
  main (common arguments) = Some mn ->
  Find m mn = None ->
  sub_all (setup arguments) = false ->
  find_fetch_dir fs arguments = Some d ->
  CreateDirectory fs d = true ->
  outside_workspace fs arguments d = true ->
  ReachableRepositories (EMap m) mn (mkSetupRepos (Keys m) (Keys m))
  = Ret (mkSetupRepos [mn] [mn]) /\
  MultiRepoFetch fs deps (EMap cfg) arguments = Ret kExitFetchError.
Proof.
  intros Hr Hmain Hmn Hall Hd Hc Hw.
  assert (Hreach : forall sr, ReachableRepositories (EMap m) mn sr
                              = Ret (mkSetupRepos [mn] [mn])).
  { intros sr; unfold ReachableRepositories, add_overlays; simpl.
    rewrite Get_map, Hmn; simpl. rewrite Get_map, Hmn; reflexivity. }
  split; [apply Hreach|].
  unfold MultiRepoFetch; rewrite Hd, Get_map, Hr; simpl.
  unfold fetch_closure, DefaultReachableRepositories; simpl.
  rewrite Hall; simpl.
  unfold select_main; rewrite Hmain, Hreach; simpl.
  unfold workspace_warning; unfold outside_workspace in Hw.
  assert (Hg : gather_repos fs deps (EMap m) [mn] []
               = Ret (inl kExitFetchError)).
  { simpl; unfold gather_repo, At; simpl; rewrite Hmn; reflexivity. }
  destruct (workspace_root (just_mr_paths (common arguments))).
  - destruct (is_subpath fs d p); [discriminate|].
    cbn [bind to_include]; rewrite Hc; cbn [negb bind to_include].
    rewrite Hg; reflexivity.
  - cbn [bind to_include]; rewrite Hc; cbn [negb bind to_include].
    rewrite Hg; reflexivity.
Qed.

Lemma gathered_are_archives_witness :
  List.length
    [mkArchiveRepoInfo
       (mkArchiveContent "c0ffee" EmptyString
                         "https://example.org/lib.tar.gz" EmptyString
                         EmptyString)
       "archive" "."]
  <= List.length ["app"; "lib"] /\
  Forall (fun a => kCheckoutTypeMap plain_deps (repo_type a) = Some Archive /\
                   subdir a <> EmptyString)
    [mkArchiveRepoInfo
       (mkArchiveContent "c0ffee" EmptyString
                         "https://example.org/lib.tar.gz" EmptyString
                         EmptyString)
       "archive" "."].
Proof.
  exact (@gathered_are_archives plain_fs plain_deps (EMap archive_repos)
           ["app"; "lib"] _ eq_refl).
Defined.

Lemma fetch_exit_codes_witness :
  kExitSuccess = kExitSuccess \/ kExitSuccess = kExitFetchError.
Proof.
  exact (@fetch_exit_codes plain_fs plain_deps
           (EMap [("repositories", EMap archive_repos)]) fetch_arguments
           kExitSuccess eq_refl).
Defined.

Lemma no_fetch_directory_witness :
  MultiRepoFetch plain_fs plain_deps
    (EMap [("repositories", EMap archive_repos)]) fetch_arguments_nowhere
  = Ret kExitFetchError.
Proof.
  apply (@no_fetch_directory plain_fs plain_deps
           (EMap [("repositories", EMap archive_repos)])
           fetch_arguments_nowhere);
    [reflexivity | constructor].
Defined.

Lemma unknown_main_is_fetch_error_witness :
  ReachableRepositories (EMap archive_repos) "other"
    (mkSetupRepos (Keys archive_repos) (Keys archive_repos))
  = Ret (mkSetupRepos ["other"] ["other"]) /\
  MultiRepoFetch plain_fs plain_deps
    (EMap [("repositories", EMap archive_repos)]) fetch_arguments_other
  = Ret kExitFetchError.
Proof.
  apply (@unknown_main_is_fetch_error plain_fs plain_deps
           [("repositories", EMap archive_repos)] archive_repos
           fetch_arguments_other "/dist" "other");
    reflexivity.
Defined.

(** ** The two overloads of [ReadLocation] *)

(** X6: for a JSON location object with string members "root" and "path"
    (and "base", if present) whose root is one of the known location types,
    the two overloads of [ReadLocation] give the same result: nothing for a
    workspace location outside of a workspace, otherwise the canonical pair
    of path and base below the selected root. *)
Theorem ReadLocation_overloads_agree (fs : FileSystem)
  (m : list (string * Json)) (ws_root : option path) (root p : string) :
  json_find m "root" = Some (JString root) ->
  json_find m "path" = Some (JString p) ->
  (json_find m "base" = None \/
   exists b, json_find m "base" = Some (JString b)) ->
  contains kLocationTypes root = true ->
  ReadLocation_json fs (JObject m) ws_root
  = ReadLocation fs (FromJson (JObject m)) ws_root /\
  ReadLocation_json fs (JObject m) ws_root
  = Ret (match select_root_path fs root ws_root with
         | None => None
         | Some root_path =>
             Some (canonical_pair fs root_path p
                     (match json_find m "base" with
                      | Some (JString b) => b
                      | _ => "."
                      end))
         end).
Proof.
  intros Hroot Hpath Hbase Hknown.
  assert (Hjson : ReadLocation_json fs (JObject m) ws_root
                  = Ret (match select_root_path fs root ws_root with
                         | None => None
                         | Some root_path =>
                             Some (canonical_pair fs root_path p
                                     (match json_find m "base" with
                                      | Some (JString b) => b
                                      | _ => "."
                                      end))
                         end)).
  { unfold ReadLocation_json, json_contains, json_at.
    rewrite Hroot, Hpath; simpl.
    destruct Hbase as [Hb|[b Hb]]; rewrite Hb; simpl;
      destruct (select_root_path fs root ws_root); reflexivity. }
  split; [|exact Hjson].
  rewrite Hjson.
  unfold ReadLocation; simpl FromJson; simpl IsNotNull; cbv iota.
  rewrite !Get_map; unfold At; simpl Map; cbn [bind].
  rewrite !Find_FromJson, Hroot, Hpath; simpl option_map.
  cbn [IsNotNull negb StringOf bind].
  rewrite Hknown; cbn [negb].
  destruct Hbase as [Hb|[b Hb]]; rewrite Hb; simpl;
    destruct (select_root_path fs root ws_root); reflexivity.
Qed.

Lemma ReadLocation_overloads_agree_witness :
  ReadLocation_json plain_fs
    (JObject [("root", JString "home"); ("path", JString ".just-repos.json");
              ("base", JString "src")]) None
  = ReadLocation plain_fs
      (FromJson (JObject [("root", JString "home");
                          ("path", JString ".just-repos.json");
                          ("base", JString "src")])) None /\
  ReadLocation_json plain_fs
    (JObject [("root", JString "home"); ("path", JString ".just-repos.json");
              ("base", JString "src")]) None
  = Ret (Some ("/home/user/.just-repos.json", "/home/user/src")).
Proof.
  apply (@ReadLocation_overloads_agree plain_fs
           [("root", JString "home"); ("path", JString ".just-repos.json");
            ("base", JString "src")] None "home" ".just-repos.json");
    [reflexivity | reflexivity | right; exists "src"; reflexivity
     | reflexivity].
Defined.

(** X7: a JSON location object that lacks the member "path" or the member
    "root" makes both overloads of [ReadLocation] leave with the
    configuration error code, whatever the other members are. *)
Theorem ReadLocation_missing_member (fs : FileSystem)
  (m : list (string * Json)) (ws_root : option path) :
  json_find m "path" = None \/ json_find m "root" = None ->
  ReadLocation_json fs (JObject m) ws_root = Exit kExitConfigError /\
  ReadLocation fs (FromJson (JObject m)) ws_root = Exit kExitConfigError.
Proof.
  intros H; split.
  - unfold ReadLocation_json, json_contains.
    destruct H as [H|H]; rewrite H; simpl; [reflexivity|].
    destruct (json_find m "path"); reflexivity.
  - unfold ReadLocation; simpl FromJson; simpl IsNotNull; cbv iota.
    rewrite !Get_map; unfold At; simpl Map; cbn [bind].
    rewrite !Find_FromJson.
    destruct H as [H|H]; rewrite H; simpl option_map; cbn [IsNotNull negb bind].
    + reflexivity.
    + destruct (IsNotNull
                  match option_map FromJson (json_find m "path") with
                  | Some v => v
                  | None => ENone
                  end); reflexivity.
Qed.

Lemma ReadLocation_missing_member_witness :
  ReadLocation_json plain_fs (JObject [("root", JString "home")]) None
  = Exit kExitConfigError /\
  ReadLocation plain_fs (FromJson (JObject [("root", JString "home")])) None
  = Exit kExitConfigError.
Proof.
  apply (@ReadLocation_missing_member plain_fs [("root", JString "home")]
           None).
  left; reflexivity.
Defined.

(** ** Reading the run-control file *)

Lemma rc_extends_refl fs c : rc_extends fs c c.
Proof.
  repeat split; auto.
  exists []; split; [symmetry; apply app_nil_r | constructor].
Qed.

Lemma rc_extends_trans fs a b c :
  rc_extends fs a b -> rc_extends fs b c -> rc_extends fs a c.
Proof.
  intros [A1 [A2 [A3 [A4 [A5 [A6 [x [A7 A8]]]]]]]]
         [B1 [B2 [B3 [B4 [B5 [B6 [y [B7 B8]]]]]]]].
  repeat split; try congruence; auto.
  exists (x ++ y); split.
  - rewrite B7, A7; symmetry; apply app_assoc.
  - apply Forall_app; split; assumption.
Qed.

Lemma rc_phase_refl fs c : rc_phase fs c c.
Proof. split; [apply rc_extends_refl | reflexivity]. Qed.

Lemma rc_phase_trans fs a b c :
  rc_phase fs a b -> rc_phase fs b c -> rc_phase fs a c.
Proof.
  intros [A1 A2] [B1 B2]; split; [eapply rc_extends_trans; eauto|].
  congruence.
Qed.

Lemma rc_build_root_phase fs rc_config c c' :
  rc_build_root fs rc_config c = Ret c' -> rc_phase fs c c'.
Proof.
  unfold rc_build_root.
  destruct (build_root c) eqn:Hb;
    [intros H; inversion H; subst; apply rc_phase_refl|].
  destruct (Get rc_config "local build root") as [l| | | |]; simpl;
    try discriminate.
  destruct (ReadLocation fs l (workspace_root (rc_paths c)))
    as [[p|]| | | |]; simpl; try discriminate;
    intros H; inversion H; subst; [|apply rc_phase_refl].
  repeat split; simpl; auto; [congruence|].
  exists []; split; [symmetry; apply app_nil_r | constructor].
Qed.

Lemma rc_checkout_extends fs rc rc_config c c' :
  rc_checkout fs rc rc_config c = Ret c' ->
  rc_extends fs c c' /\
  (checkout_locations_file c = None ->
   forall p, checkout_locations_file c' = Some p -> IsFile rc p = true).
Proof.
  unfold rc_checkout.
  destruct (checkout_locations_file c) eqn:Hb.
  { intros H; inversion H; subst; split;
      [apply rc_extends_refl | discriminate]. }
  destruct (Get rc_config "checkout locations") as [l| | | |]; simpl;
    try discriminate.
  destruct (ReadLocation fs l (workspace_root (rc_paths c)))
    as [[p|]| | | |]; simpl; try discriminate.
  - destruct (IsFile rc (fst p)) eqn:Hf; simpl; [|discriminate].
    intros H; inversion H; subst; split.
    + repeat split; simpl; auto; [congruence|].
      exists []; split; [symmetry; apply app_nil_r | constructor].
    + simpl; intros _ q Hq; inversion Hq; subst; exact Hf.
  - intros H; inversion H; subst; split; [apply rc_extends_refl|].
    intros _ q Hq; congruence.
Qed.

Lemma rc_distdirs_phase fs rc_config c c' :
  rc_distdirs fs rc_config c = Ret c' -> rc_phase fs c c'.
Proof.
  unfold rc_distdirs.
  destruct (Get rc_config "distdirs") as [d| | | |]; simpl; try discriminate.
  destruct (IsNotNull d);
    [|intros H; inversion H; subst; apply rc_phase_refl].
  destruct (ListOf d) as [l| | | |]; simpl; try discriminate.
  apply (for_each_invariant (fun s => rc_phase fs c s));
    [|apply rc_phase_refl].
  intros x s s' _ Hs Hbody.
  apply rc_phase_trans with (b := s); [exact Hs|].
  destruct (ReadLocation fs x (workspace_root (rc_paths s)))
    as [[p|]| | | |]; simpl in Hbody; try discriminate.
  - destruct (IsDirectory fs (fst p)) eqn:Hd; inversion Hbody; subst;
      [|apply rc_phase_refl].
    repeat split; simpl; auto.
    exists [fst p]; split; [reflexivity|].
    constructor; [exact Hd | constructor].
  - inversion Hbody; subst; apply rc_phase_refl.
Qed.

Lemma rc_just_path_phase fs rc_config c c' :
  rc_just_path fs rc_config c = Ret c' -> rc_phase fs c c'.
Proof.
  unfold rc_just_path.
  destruct (just_path c) eqn:Hb;
    [intros H; inversion H; subst; apply rc_phase_refl|].
  destruct (Get rc_config "just") as [l| | | |]; simpl; try discriminate.
  destruct (ReadLocation fs l (workspace_root (rc_paths c)))
    as [[p|]| | | |]; simpl; try discriminate;
    intros H; inversion H; subst; [|apply rc_phase_refl].
  repeat split; simpl; auto; [congruence|].
  exists []; split; [symmetry; apply app_nil_r | constructor].
Qed.

Lemma rc_just_args_phase fs rc_config c c' :
  rc_just_args rc_config c = Ret c' -> rc_phase fs c c'.
Proof.
  unfold rc_just_args.
  destruct (Get rc_config "just args") as [d| | | |]; simpl;
    try discriminate.
  destruct (IsNotNull d);
    [|intros H; inversion H; subst; apply rc_phase_refl].
  destruct (Map d) as [l| | | |]; simpl; try discriminate.
  apply (for_each_invariant (fun s => rc_phase fs c s));
    [|apply rc_phase_refl].
  intros x s s' _ Hs Hbody.
  destruct (read_string_args (snd x)) as [a| | | |]; simpl in Hbody;
    try discriminate.
  inversion Hbody; subst.
  apply rc_phase_trans with (b := s); [exact Hs|].
  repeat split; simpl; auto.
  exists []; split; [symmetry; apply app_nil_r | constructor].
Qed.

Lemma set_setup_root_phase fs c p : rc_phase fs c (set_setup_root c p).
Proof.
  repeat split; simpl; auto.
  exists []; split; [symmetry; apply app_nil_r | constructor].
Qed.

Lemma find_config_is_file {E : Type} (read : E -> Res (option (path * path)))
  (is_file : path -> bool) : forall entries paths,
  find_config read is_file entries = Ret (Some paths) ->
  is_file (fst paths) = true /\
  exists entry, In entry entries /\ read entry = Ret (Some paths).
Proof.
  induction entries as [|e rest IH]; intros paths Hrun; simpl in Hrun.
  - discriminate.
  - destruct (read e) as [[p|]| | | |] eqn:He; simpl in Hrun;
      try discriminate.
    + destruct (is_file (fst p)) eqn:Hf.
      * inversion Hrun; subst; split; [exact Hf|].
        exists e; split; [left; reflexivity | exact He].
      * destruct (IH _ Hrun) as [H1 [x [Hx Hr]]]; split; [exact H1|].
        exists x; split; [right; exact Hx | exact Hr].
    + destruct (IH _ Hrun) as [H1 [x [Hx Hr]]]; split; [exact H1|].
      exists x; split; [right; exact Hx | exact Hr].
Qed.

Lemma rc_config_file_is_file fs rc rc_config c paths :
  rc_config_file fs rc rc_config c = Ret (Some paths) ->
  IsFile rc (fst paths) = true.
Proof.
  unfold rc_config_file.
  destruct (Get rc_config "config lookup order") as [d| | | |]; simpl;
    try discriminate.
  destruct (IsNotNull d).
  - destruct (ListOf d) as [l| | | |]; simpl; try discriminate.
    intros H; apply find_config_is_file in H; tauto.
  - intros H; apply find_config_is_file in H; tauto.
Qed.

Lemma ReadJustMRRC_phases fs rc c found c' :
  ReadJustMRRC fs rc c = Ret (found, c') ->
  rc_extends fs c c' /\
  (forall p, found = Some p -> IsFile rc p = true) /\
  (checkout_locations_file c = None ->
   forall p, checkout_locations_file c' = Some p -> IsFile rc p = true).
Proof.
  unfold ReadJustMRRC.
  destruct (read_rc_config rc c) as [[cfg|]| | | |]; simpl;
    try discriminate.
  2: { intros H; inversion H; subst; split; [apply rc_extends_refl|].
       split; [discriminate | congruence]. }
  destruct (rc_build_root fs cfg c) as [c1| | | |] eqn:H1; simpl;
    try discriminate.
  destruct (rc_checkout fs rc cfg c1) as [c2| | | |] eqn:H2; simpl;
    try discriminate.
  destruct (rc_distdirs fs cfg c2) as [c3| | | |] eqn:H3; simpl;
    try discriminate.
  destruct (rc_just_path fs cfg c3) as [c4| | | |] eqn:H4; simpl;
    try discriminate.
  destruct (rc_just_args cfg c4) as [c5| | | |] eqn:H5; simpl;
    try discriminate.
  destruct (rc_config_file fs rc cfg c5) as [f| | | |] eqn:H6; simpl;
    try discriminate.
  apply rc_build_root_phase in H1; destruct H1 as [H1 K1].
  apply rc_checkout_extends in H2; destruct H2 as [H2 H2f].
  apply rc_distdirs_phase in H3.
  apply rc_just_path_phase in H4.
  apply (rc_just_args_phase fs) in H5.
  pose proof (rc_phase_trans H3 (rc_phase_trans H4 H5)) as [H25 K25].
  assert (Hext : forall p, rc_extends fs c (set_setup_root c5 p)).
  { intros p.
    eapply rc_extends_trans; [exact H1|].
    eapply rc_extends_trans; [exact H2|].
    eapply rc_extends_trans; [exact H25|].
    apply set_setup_root_phase. }
  assert (Hck : checkout_locations_file c = None ->
                forall p, checkout_locations_file c5 = Some p ->
                          IsFile rc p = true).
  { intros Hn p Hp; rewrite K25 in Hp.
    apply H2f; [rewrite K1; exact Hn | exact Hp]. }
  destruct f as [paths|]; intros H; inversion H; subst.
  - split; [apply Hext|]; split.
    + intros p Hp; inversion Hp; subst.
      eapply rc_config_file_is_file; eauto.
    + exact Hck.
  - split; [|split; [discriminate | exact Hck]].
    eapply rc_extends_trans; [exact H1|].
    eapply rc_extends_trans; [exact H2|]. exact H25.
Qed.

(** X8: the path of the repository configuration that [ReadJustMRRC]
    returns names an existing file, and so does a checkout locations file
    that it takes from the run-control file. *)
Theorem rc_reported_files_exist fs rc c found c' :
  ReadJustMRRC fs rc c = Ret (found, c') ->
  (forall p, found = Some p -> IsFile rc p = true) /\
  (checkout_locations_file c = None ->
   forall p, checkout_locations_file c' = Some p -> IsFile rc p = true).
Proof. intros H; apply ReadJustMRRC_phases in H; tauto. Qed.

Lemma rc_reported_files_exist_witness :
  (forall p, Some "/home/user/repos.json" = Some p ->
             IsFile plain_rc p = true) /\
  (checkout_locations_file rc_arguments = None ->
   forall p, @None path = Some p -> IsFile plain_rc p = true).
Proof.
  exact (@rc_reported_files_exist plain_fs plain_rc rc_arguments
           (Some "/home/user/repos.json")
           (mkRCArgs None false (Some "/build") None None
                     (mkPaths "/home/user/." None
                              ["/dist"; "/home/user/distfiles"])
                     [("build", [""; ""; "-J"; "8"])])
           eq_refl).
Defined.

(** X9: [ReadJustMRRC] never replaces what the command line gave: a build
    root, a checkout locations file and a path of just that were given are
    kept, and the run-control path, the norc flag and the workspace root
    are left as they are. *)
Theorem rc_keeps_command_line fs rc c found c' :
  ReadJustMRRC fs rc c = Ret (found, c') ->
  rc_path c' = rc_path c /\
  norc c' = norc c /\
  (forall p, build_root c = Some p -> build_root c' = Some p) /\
  (forall p, checkout_locations_file c = Some p ->
             checkout_locations_file c' = Some p) /\
  (forall p, just_path c = Some p -> just_path c' = Some p) /\
  workspace_root (rc_paths c') = workspace_root (rc_paths c).
Proof.
  intros H; apply ReadJustMRRC_phases in H.
  destruct H as [[H1 [H2 [H3 [H4 [H5 [H6 _]]]]]] _]; repeat split; assumption.
Qed.

Lemma rc_keeps_command_line_witness :
  @None path = rc_path rc_arguments /\
  false = norc rc_arguments /\
  (forall p, build_root rc_arguments = Some p -> Some "/build" = Some p) /\
  (forall p, checkout_locations_file rc_arguments = Some p ->
             @None path = Some p) /\
  (forall p, just_path rc_arguments = Some p -> @None path = Some p) /\
  @None path = workspace_root (rc_paths rc_arguments).
Proof.
  exact (@rc_keeps_command_line plain_fs plain_rc rc_arguments
           (Some "/home/user/repos.json")
           (mkRCArgs None false (Some "/build") None None
                     (mkPaths "/home/user/." None
                              ["/dist"; "/home/user/distfiles"])
                     [("build", [""; ""; "-J"; "8"])])
           eq_refl).
Defined.

(** X10: [ReadJustMRRC] keeps the distribution directories it was given, in
    order, and appends to them only directories that exist. *)
Theorem rc_appends_existing_distdirs fs rc c found c' :
  ReadJustMRRC fs rc c = Ret (found, c') ->
  exists added,
    distdirs (rc_paths c') = distdirs (rc_paths c) ++ added /\
    Forall (fun d => IsDirectory fs d = true) added.
Proof.
  intros H; apply ReadJustMRRC_phases in H.
  destruct H as [[_ [_ [_ [_ [_ [_ H]]]]]] _]; exact H.
Qed.

Lemma rc_appends_existing_distdirs_witness :
  exists added,
    ["/dist"; "/home/user/distfiles"]
    = distdirs (rc_paths rc_arguments) ++ added /\
    Forall (fun d => IsDirectory plain_fs d = true) added.
Proof.
  exact (@rc_appends_existing_distdirs plain_fs plain_rc rc_arguments
           (Some "/home/user/repos.json")
           (mkRCArgs None false (Some "/build") None None
                     (mkPaths "/home/user/." None
                              ["/dist"; "/home/user/distfiles"])
                     [("build", [""; ""; "-J"; "8"])])
           eq_refl).
Defined.

(** X11: when no run-control file is named, the run-control file is not
    switched off and there is no file at the default place, [ReadJustMRRC]
    returns no configuration path and leaves the arguments untouched; the
    default configuration locations are not looked at. *)
Theorem rc_without_default_file fs rc c :
  norc c = false ->
  rc_path c = None ->
  IsFile rc (kDefaultRCPath rc) = false ->
  ReadJustMRRC fs rc c = Ret (None, c).
Proof.
  intros Hn Hp Hf; unfold ReadJustMRRC, read_rc_config.
  rewrite Hn, Hp, Hf; reflexivity.
Qed.

Lemma rc_without_default_file_witness :
  ReadJustMRRC plain_fs bare_rc rc_arguments = Ret (None, rc_arguments).
Proof.
  apply (@rc_without_default_file plain_fs bare_rc rc_arguments);
    reflexivity.
Defined.



(** ** Every run of the git-tree fetch map *)

Ltac any_world cfg w :=
  destruct cfg as [root bin lau loc rem]; destruct w;
  unfold_run; goal_cases.

Ltac name_values :=
  repeat match goal with
         | v : GitOpValue |- _ => destruct v; simpl in *
         end;
  subst.

(** X13: in every run of the compute function the key is resolved at most
    once, and a call that resolves it (the setter, or the logger with the
    fatal flag) is the last event of the run. *)
Theorem run_resolves_last (dump : list string -> string) (cfg : MapConfig)
  (w : World) (key : GitTreeInfo) :
  forallb (fun e => negb (is_resolution e))
          (removelast (run dump cfg w key)) = true /\
  count is_resolution (run dump cfg w key) <= 1.
Proof.
  assert (G : resolves_last (run dump cfg w key) /\
              count is_resolution (run dump cfg w key) <= 1).
  { set (P := fun t => resolves_last t /\ count is_resolution t <= 1).
    change (P (run dump cfg w key)).
    any_world cfg w; unfold P, resolves_last, count;
      cbn -[String.append mismatch_message]; split_flags;
      cbn -[String.append mismatch_message]; split;
      try reflexivity; lia. }
  exact G.
Qed.

(** X14: a run sets "cache hit" only if the Git cache was initialised and
    opened and the probe found the tree, and it sets "no cache hit" only if
    the probe reported the tree missing. *)
Theorem value_tells_probe (dump : list string -> string) (cfg : MapConfig)
  (w : World) (key : GitTreeInfo) :
  (key_state (run dump cfg w key) = Ready true ->
   exists cas, cache_probed w cas true) /\
  (key_state (run dump cfg w key) = Ready false ->
   exists cas, cache_probed w cas false).
Proof.
  change (hit_law w (run dump cfg w key)).
  any_world cfg w; unfold hit_law, cache_probed;
    cbn -[String.append mismatch_message]; split_flags;
    cbn -[String.append mismatch_message];
    split; intros; try discriminate; name_values;
    repeat match goal with
           | H : negb ?b = false |- _ => destruct b; [clear H|discriminate H]
           end;
    eexists; repeat split; eauto.
Qed.

Lemma value_tells_probe_witness :
  key_state (run words local_only (smooth_world true false) tree_key)
  = Ready true /\
  exists cas, cache_probed (smooth_world true false) cas true.
Proof.
  split; [reflexivity|].
  apply (proj1 (@value_tells_probe words local_only (smooth_world true false)
                  tree_key)).
  reflexivity.
Defined.

(** X15: when the remote API or the local API is not configured, no run asks
    the remote CAS for anything. *)
Theorem no_api_no_remote (dump : list string -> string) (cfg : MapConfig)
  (w : World) (key : GitTreeInfo) :
  remote_api cfg = None \/ local_api cfg = None ->
  count is_remote (run dump cfg w key) = 0.
Proof.
  intros H.
  set (P := fun t => count is_remote t = 0).
  change (P (run dump cfg w key)).
  destruct cfg as [root bin lau loc rem]; simpl in H.
  destruct w; unfold_run.
  destruct H as [H|H]; subst; goal_cases; reflexivity.
Qed.

Lemma no_api_no_remote_witness :
  count is_remote (run words local_only (smooth_world false true) tree_key)
  = 0.
Proof.
  apply (@no_api_no_remote words local_only (smooth_world false true)
           tree_key).
  left; reflexivity.
Defined.

(** X16: every run executes the generator command at most once, never after
    the remote CAS delivered the tree, and if it does, the command line is
    the launcher followed by the command of the key, the working directory
    and the output directory are the two temporary directories, and the
    environment is that of the key with the inherited variables assigned. *)
Theorem command_runs_once (dump : list string -> string) (cfg : MapConfig)
  (w : World) (key : GitTreeInfo) :
  filter is_execute (run dump cfg w key) = [] \/
  (remote_hit cfg key = false /\
   exists d od,
     w_tmp_dir w = Some d /\ w_out_dir w = Some od /\
     filter is_execute (run dump cfg w key)
     = [Execute (launcher cfg ++ command key)
                (inherit (w_getenv w) (inherit_env key) (env_vars key))
                d od]).
Proof.
  change (execute_law cfg w key (run dump cfg w key)).
  any_world cfg w; unfold execute_law, remote_hit;
    cbn -[String.append mismatch_message];
    try (left; reflexivity);
    right; use_equations; cbn -[String.append mismatch_message];
    (split; [reflexivity | do 2 eexists; repeat split]).
Qed.

(** X17: every run requests a keep tag at most once, and only for the commit
    that INITIAL_COMMIT returned, in the Git cache, after the declared tree
    was found in the committed output and the fetch into the Git cache
    succeeded. *)
Theorem keep_tag_after_verification (dump : list string -> string)
  (cfg : MapConfig) (w : World) (key : GitTreeInfo) :
  keep_tags (run dump cfg w key) = [] \/
  (exists cas c,
     w_initial_commit w = KeyReady (mkGitOpValue cas (Some c)) /\
     w_check_tmp w = CheckOk true /\
     w_fetch_via_tmp_repo w = FetchOk /\
     keep_tags (run dump cfg w key)
     = [mkGitOpKey
          (mkGitOpParams (GitRoot cfg) c EmptyString
                         (Some "Keep referenced tree alive") None)
          KEEP_TAG]).
Proof.
  change (keep_tag_law cfg w (run dump cfg w key)).
  any_world cfg w; unfold keep_tag_law;
    cbn -[String.append mismatch_message];
    try (left; reflexivity);
    right; name_values; do 2 eexists; repeat split.
Qed.

(** ** The environment of the generator command *)

Lemma ltb_total a b :
  String.ltb a b = false -> String.eqb a b = false -> String.ltb b a = true.
Proof.
  unfold String.ltb; intros Hlt Hne.
  rewrite (String.compare_antisym a b) in Hlt.
  destruct (String.compare b a) eqn:Hc; simpl in Hlt; try discriminate.
  - apply String.compare_eq_iff in Hc; subst.
    rewrite String.eqb_refl in Hne; discriminate.
  - reflexivity.
Qed.

Lemma map_assign_lookup m k v k' :
  env_lookup (map_assign m k v) k'
  = if String.eqb k k' then Some v else env_lookup m k'.
Proof.
  induction m as [|[a b] r IH]; simpl.
  - reflexivity.
  - destruct (String.eqb_spec k a) as [E|E].
    + subst a; simpl; destruct (String.eqb k k'); reflexivity.
    + destruct (String.ltb k a); simpl.
      * destruct (String.eqb k k'); reflexivity.
      * rewrite IH.
        destruct (String.eqb_spec a k') as [E'|E']; [|reflexivity].
        subst k'.
        destruct (String.eqb_spec k a) as [E2|E2]; [contradiction|reflexivity].
Qed.

Lemma map_assign_head m k v :
  match map_assign m k v with
  | [] => False
  | (a, _) :: _ =>
      a = k \/ exists b r, m = (a, b) :: r /\ String.ltb a k = true
  end.
Proof.
  destruct m as [|[a b] r]; simpl; [left; reflexivity|].
  destruct (String.eqb_spec k a) as [E|E]; [left; reflexivity|].
  destruct (String.ltb k a) eqn:Hlt; [left; reflexivity|].
  right; exists b, r; split; [reflexivity|].
  apply ltb_total; [exact Hlt | apply String.eqb_neq; exact E].
Qed.

Lemma map_assign_sorted m k v :
  keys_sorted m = true -> keys_sorted (map_assign m k v) = true.
Proof.
  induction m as [|[a b] r IH]; intros Hs; [reflexivity|].
  simpl map_assign.
  destruct (String.eqb_spec k a) as [E|E].
  - subst a; exact Hs.
  - destruct (String.ltb k a) eqn:Hlt.
    + change (String.ltb k a && keys_sorted ((a, b) :: r) = true).
      rewrite Hlt; exact Hs.
    + assert (Hak : String.ltb a k = true)
        by (apply ltb_total; [exact Hlt | apply String.eqb_neq; exact E]).
      assert (Hr : keys_sorted r = true).
      { simpl in Hs; destruct r as [|[a' b'] r']; [reflexivity|].
        apply andb_true_iff in Hs; tauto. }
      specialize (IH Hr).
      pose proof (map_assign_head r k v) as Hh.
      simpl; destruct (map_assign r k v) as [|[a' b'] r'] eqn:Hm;
        [reflexivity|].
      rewrite IH, andb_true_r.
      destruct Hh as [Hh|[b0 [r0 [Hr0 _]]]]; [subst; exact Hak|].
      subst r; simpl in Hs; apply andb_true_iff in Hs; tauto.
Qed.

(** X18: the environment handed to the generator command is again a map
    with strictly increasing keys; a name of inherit_env that is set in the
    ambient environment has its ambient value there, also when env_vars
    gives it another value, and every other name has the value that
    env_vars gives it. *)
Theorem inherited_environment (getenv : string -> option string)
  (names : list string) (env : list (string * string)) :
  (keys_sorted env = true -> keys_sorted (inherit getenv names env) = true) /\
  forall k,
    env_lookup (inherit getenv names env) k
    = match (if contains names k then getenv k else None) with
      | Some v => Some v
      | None => env_lookup env k
      end.
Proof.
  unfold inherit; revert env.
  induction names as [|n names IH]; intros env; simpl.
  - split; [auto | reflexivity].
  - destruct (IH (match getenv n with
                  | Some v => map_assign env n v
                  | None => env
                  end)) as [IHs IHl].
    split.
    + intros Hs; apply IHs.
      destruct (getenv n); [apply map_assign_sorted|]; exact Hs.
    + intros k; rewrite IHl.
      unfold contains in *; simpl.
      destruct (String.eqb_spec k n) as [E|E]; simpl.
      * subst n.
        destruct (existsb (String.eqb k) names);
          destruct (getenv k) as [v|]; try reflexivity.
        rewrite map_assign_lookup, String.eqb_refl; reflexivity.
      * destruct (if existsb (String.eqb k) names then getenv k else None);
          [reflexivity|].
        destruct (getenv n) as [v|]; [|reflexivity].
        rewrite map_assign_lookup.
        destruct (String.eqb_spec n k) as [E'|E'];
          [subst; contradiction | reflexivity].
Qed.

Lemma inherited_environment_witness :
  keys_sorted [("CC", "gcc"); ("PATH", "/bin")] = true /\
  keys_sorted
    (inherit (fun k => if String.eqb k "PATH" then Some "/usr/bin" else None)
             ["PATH"; "HOME"] [("CC", "gcc"); ("PATH", "/bin")]) = true.
Proof.
  split; [reflexivity|].
  apply (proj1 (@inherited_environment
                  (fun k => if String.eqb k "PATH" then Some "/usr/bin"
                            else None)
                  ["PATH"; "HOME"] [("CC", "gcc"); ("PATH", "/bin")])).
  reflexivity.
Defined.

(** ** The Git object database *)

(** X19: an id that is shorter than an object id of its kind (40 characters
    in hex, 20 raw) is not found: [ReadObject], [ReadHeader] and [ReadTree]
    return nothing, whatever the object database holds. *)
Theorem short_id_reads_nothing (cas : GitCAS) (id : string)
  (is_hex_id : bool) :
  String.length id < (if is_hex_id then 40 else 20) ->
  ReadObject cas id is_hex_id = None /\
  ReadHeader cas id is_hex_id = None /\
  ReadTree cas id is_hex_id = None.
Proof.
  intros Hlen.
  assert (E : GitObjectID (libgit2 cas) id is_hex_id = None).
  { unfold GitObjectID, kOIDHexSize, kOIDRawSize.
    replace (Nat.ltb (String.length id) (if is_hex_id then 40 else 20))
      with true; [reflexivity|].
    symmetry; apply Nat.ltb_lt; exact Hlen. }
  unfold ReadObject, ReadHeader, ReadTree; rewrite E.
  destruct (initialized_ cas); repeat split.
Qed.

Lemma short_id_reads_nothing_witness :
  ReadObject (toy_cas toy_tree) "0123abc" true = None /\
  ReadHeader (toy_cas toy_tree) "0123abc" true = None /\
  ReadTree (toy_cas toy_tree) "0123abc" true = None.
Proof.
  apply (@short_id_reads_nothing (toy_cas toy_tree) "0123abc" true).
  simpl; lia.
Defined.

(** X20: a header that [ReadHeader] returns is the size that the object
    database reports together with the type file for a blob or the type
    tree for a tree; commits, tags and other objects have no header. *)
Theorem header_of_blob_or_tree (cas : GitCAS) (id : string)
  (is_hex_id : bool) (size : nat) (type : ObjectType) :
  ReadHeader cas id is_hex_id = Some (size, type) ->
  initialized_ cas = true /\
  exists oid,
    GitObjectID (libgit2 cas) id is_hex_id = Some oid /\
    ((git_odb_read_header (libgit2 cas) oid = Some (size, GIT_OBJECT_BLOB) /\
      type = OT_File) \/
     (git_odb_read_header (libgit2 cas) oid = Some (size, GIT_OBJECT_TREE) /\
      type = OT_Tree)).
Proof.
  unfold ReadHeader.
  destruct (initialized_ cas); simpl; [|discriminate].
  destruct (GitObjectID (libgit2 cas) id is_hex_id) as [oid|];
    [|discriminate].
  destruct (git_odb_read_header (libgit2 cas) oid) as [[sz ty]|] eqn:Hh;
    [|discriminate].
  destruct ty; simpl; try discriminate; intros H; inversion H; subst;
    (split; [reflexivity|]); exists oid; (split; [reflexivity|]); auto.
Qed.

Lemma header_of_blob_or_tree_witness :
  initialized_ (toy_cas toy_tree) = true /\
  exists oid,
    GitObjectID (libgit2 (toy_cas toy_tree))
      "1111111111111111111111111111111111111111" true = Some oid /\
    ((git_odb_read_header (libgit2 (toy_cas toy_tree)) oid
      = Some (4, GIT_OBJECT_BLOB) /\ OT_File = OT_File) \/
     (git_odb_read_header (libgit2 (toy_cas toy_tree)) oid
      = Some (4, GIT_OBJECT_TREE) /\ OT_File = OT_Tree)).
Proof.
  exact (@header_of_blob_or_tree (toy_cas toy_tree)
           "1111111111111111111111111111111111111111" true 4 OT_File
           eq_refl).
Defined.

Lemma entries_emplace_at entries k node k' :
  entries_at (entries_emplace entries k node) k'
  = if String.eqb k k' then entries_at entries k ++ [node]
    else entries_at entries k'.
Proof.
  induction entries as [|[a nodes] r IH]; simpl.
  - destruct (String.eqb k k'); reflexivity.
  - destruct (String.eqb_spec a k) as [E|E]; simpl.
    + subst a; destruct (String.eqb k k'); reflexivity.
    + rewrite IH.
      destruct (String.eqb_spec a k') as [E'|E']; [|reflexivity].
      subst k'.
      destruct (String.eqb_spec k a) as [E2|E2];
        [subst; contradiction | reflexivity].
Qed.

Lemma entries_emplace_keys entries k node :
  NoDup (List.map fst entries) ->
  NoDup (List.map fst (entries_emplace entries k node)) /\
  forall x, In x (List.map fst (entries_emplace entries k node)) ->
            x = k \/ In x (List.map fst entries).
Proof.
  induction entries as [|[a nodes] r IH]; simpl; intros Hnd.
  - split; [constructor; [intros []|constructor]|].
    intros x [E|[]]; left; symmetry; exact E.
  - destruct (String.eqb_spec a k) as [E|E]; simpl.
    + split; [exact Hnd | intros x Hx; right; exact Hx].
    + inversion Hnd as [|? ? Ha Hr]; subst.
      destruct (IH Hr) as [Hnd' Hin].
      split.
      * constructor; [|exact Hnd'].
        intros Hc; destruct (Hin _ Hc) as [Hk|Hk];
          [apply E; exact Hk | apply Ha; exact Hk].
      * intros x [Hx|Hx]; [right; left; exact Hx|].
        destruct (Hin _ Hx) as [Hk|Hk]; [left; exact Hk|right; right; exact Hk].
Qed.

Lemma walk_lists_entries (git : LibGit2) : forall tree acc r entries,
  git_tree_walk (flat_tree_walker git) tree acc = (r, entries) ->
  NoDup (List.map fst acc) ->
  (r = 0%Z \/ r = (-1)%Z) /\
  (r = 0%Z ->
   (forall raw, entries_at entries raw
                = entries_at acc raw ++ flat_map (listed_node git raw) tree) /\
   Forall (fun e => ToRawString git (tree_entry_id e) <> None /\
                    GitFileModeToObjectType (tree_entry_filemode e) <> None)
          tree /\
   NoDup (List.map fst entries)) /\
  (r = (-1)%Z ->
   exists e, In e tree /\
             (ToRawString git (tree_entry_id e) = None \/
              GitFileModeToObjectType (tree_entry_filemode e) = None)).
Proof.
  induction tree as [|e rest IH]; intros acc r entries Hw Hnd; simpl in Hw.
  - inversion Hw; subst; split; [left; reflexivity|]; split.
    + intros _; split; [intros raw; rewrite app_nil_r; reflexivity|].
      split; [constructor | exact Hnd].
    + discriminate.
  - unfold flat_tree_walker in Hw at 1.
    destruct (ToRawString git (tree_entry_id e)) as [raw_id|] eqn:Hraw.
    2: { simpl in Hw; inversion Hw; subst; split; [right; reflexivity|].
         split; [discriminate|].
         intros _; exists e; split; [left; reflexivity | left; exact Hraw]. }
    destruct (GitFileModeToObjectType (tree_entry_filemode e)) as [ty|]
      eqn:Hmode.
    2: { simpl in Hw; inversion Hw; subst; split; [right; reflexivity|].
         split; [discriminate|].
         intros _; exists e; split; [left; reflexivity | right; exact Hmode]. }
    simpl in Hw.
    destruct (entries_emplace_keys acc raw_id
                (mkTreeEntry (tree_entry_name e) ty) Hnd) as [Hnd' _].
    destruct (IH _ _ _ Hw Hnd') as [Hr [H0 H1]].
    split; [exact Hr|]; split.
    + intros Hz; destruct (H0 Hz) as [Hat [Hall Hk]].
      split; [|split; [|exact Hk]].
      * intros raw; rewrite Hat, entries_emplace_at.
        change (flat_map (listed_node git raw) (e :: rest))
          with (listed_node git raw e ++ flat_map (listed_node git raw) rest).
        assert (Hn : listed_node git raw e
                     = if String.eqb raw_id raw
                       then [mkTreeEntry (tree_entry_name e) ty] else [])
          by (unfold listed_node; rewrite Hraw, Hmode; reflexivity).
        rewrite Hn; destruct (String.eqb_spec raw_id raw); subst; simpl;
          rewrite <- ?app_assoc; reflexivity.
      * constructor; [|exact Hall].
        rewrite Hraw, Hmode; split; discriminate.
    + intros Hm; destruct (H1 Hm) as [x [Hx Hbad]].
      exists x; split; [right; exact Hx | exact Hbad].
Qed.

(** X21: when [ReadTree] returns entries, the tree was found, every entry of
    the tree has a raw id and one of the three supported file modes, the
    list of a raw id holds exactly the entries of the tree with that id, in
    the order of the tree, and no raw id has two lists. *)
Theorem tree_entries_by_id (cas : GitCAS) (id : string) (is_hex_id : bool)
  (entries : tree_entries_t) :
  ReadTree cas id is_hex_id = Some entries ->
  exists oid tree,
    GitObjectID (libgit2 cas) id is_hex_id = Some oid /\
    git_tree_lookup (libgit2 cas) oid = Some tree /\
    (forall raw, entries_at entries raw
                 = flat_map (listed_node (libgit2 cas) raw) tree) /\
    Forall (fun e =>
              ToRawString (libgit2 cas) (tree_entry_id e) <> None /\
              GitFileModeToObjectType (tree_entry_filemode e) <> None) tree /\
    NoDup (List.map fst entries).
Proof.
  unfold ReadTree.
  destruct (GitObjectID (libgit2 cas) id is_hex_id) as [oid|];
    [|discriminate].
  destruct (git_repository_wrap_odb (libgit2 cas)); simpl; [|discriminate].
  destruct (git_tree_lookup (libgit2 cas) oid) as [tree|] eqn:Hl;
    [|discriminate].
  destruct (git_tree_walk (flat_tree_walker (libgit2 cas)) tree [])
    as [r es] eqn:Hw.
  destruct (Z.eqb_spec r 0) as [Hr|Hr]; simpl; [|discriminate].
  intros H; inversion H; subst.
  exists oid, tree; split; [reflexivity|]; split; [exact Hl|].
  destruct (walk_lists_entries _ _ _ Hw (NoDup_nil _)) as [_ [H0 _]].
  destruct (H0 eq_refl) as [Hat [Hall Hk]].
  split; [intros raw; rewrite Hat; reflexivity | split; assumption].
Qed.

(** X22: a tree with an entry whose file mode is none of regular file,
    executable file and tree, such as a symbolic link or a submodule, cannot
    be read: [ReadTree] returns nothing for it. *)
Theorem tree_with_other_mode_unread (cas : GitCAS) (id : string)
  (is_hex_id : bool) (oid : git_oid) (tree : list git_tree_entry)
  (e : git_tree_entry) :
  GitObjectID (libgit2 cas) id is_hex_id = Some oid ->
  git_tree_lookup (libgit2 cas) oid = Some tree ->
  In e tree ->
  tree_entry_filemode e <> GIT_FILEMODE_BLOB ->
  tree_entry_filemode e <> GIT_FILEMODE_BLOB_EXECUTABLE ->
  tree_entry_filemode e <> GIT_FILEMODE_TREE ->
  ReadTree cas id is_hex_id = None.
Proof.
  intros Hid Hl Hin H1 H2 H3.
  assert (Hmode : GitFileModeToObjectType (tree_entry_filemode e) = None).
  { unfold GitFileModeToObjectType.
    apply Z.eqb_neq in H1, H2, H3; rewrite H1, H2, H3; reflexivity. }
  unfold ReadTree; rewrite Hid, Hl.
  destruct (git_repository_wrap_odb (libgit2 cas)); simpl; [|reflexivity].
  destruct (git_tree_walk (flat_tree_walker (libgit2 cas)) tree [])
    as [r es] eqn:Hw.
  destruct (Z.eqb_spec r 0) as [Hr|Hr]; simpl; [|reflexivity].
  destruct (walk_lists_entries _ _ _ Hw (NoDup_nil _)) as [_ [H0 _]].
  destruct (H0 Hr) as [_ [Hall _]].
  rewrite Forall_forall in Hall; destruct (Hall e Hin) as [_ Hc].
  contradiction.
Qed.

Lemma tree_entries_by_id_witness :
  exists oid tree,
    GitObjectID (libgit2 (toy_cas toy_tree))
      "0123456789abcdef0123456789abcdef01234567" true = Some oid /\
    git_tree_lookup (libgit2 (toy_cas toy_tree)) oid = Some tree /\
    (forall raw,
       entries_at
         [("1111111111111111111111111111111111111111",
           [mkTreeEntry "README" OT_File; mkTreeEntry "README.md" OT_File]);
          ("2222222222222222222222222222222222222222",
           [mkTreeEntry "src" OT_Tree])] raw
       = flat_map (listed_node (libgit2 (toy_cas toy_tree)) raw) tree) /\
    Forall (fun e =>
              ToRawString (libgit2 (toy_cas toy_tree)) (tree_entry_id e)
              <> None /\
              GitFileModeToObjectType (tree_entry_filemode e) <> None) tree /\
    NoDup (List.map fst
             [("1111111111111111111111111111111111111111",
               [mkTreeEntry "README" OT_File;
                mkTreeEntry "README.md" OT_File]);
              ("2222222222222222222222222222222222222222",
               [mkTreeEntry "src" OT_Tree])]).
Proof.
  exact (@tree_entries_by_id (toy_cas toy_tree)
           "0123456789abcdef0123456789abcdef01234567" true _ eq_refl).
Defined.

Lemma tree_with_other_mode_unread_witness :
  ReadTree
    (toy_cas [mkGitTreeEntry "link"
                "3333333333333333333333333333333333333333"
                GIT_FILEMODE_LINK])
    "0123456789abcdef0123456789abcdef01234567" true = None.
Proof.
  apply (@tree_with_other_mode_unread
           (toy_cas [mkGitTreeEntry "link"
                       "3333333333333333333333333333333333333333"
                       GIT_FILEMODE_LINK])
           "0123456789abcdef0123456789abcdef01234567" true
           "0123456789abcdef0123456789abcdef01234567"
           [mkGitTreeEntry "link"
              "3333333333333333333333333333333333333333" GIT_FILEMODE_LINK]
           (mkGitTreeEntry "link"
              "3333333333333333333333333333333333333333" GIT_FILEMODE_LINK));
    [reflexivity | reflexivity | left; reflexivity
     | discriminate | discriminate | discriminate].
Defined.

(** ** The audited invariant of a tree walk *)

Lemma all_or_none {A : Type} (p : A -> bool) (l : list A) :
  forallb p l || negb (existsb p l) = true <->
  forall a b, In a l -> In b l -> p a = p b.
Proof.
  split.
  - intros H a b Ha Hb; apply orb_true_iff in H; destruct H as [H|H].
    + rewrite forallb_forall in H; rewrite (H a Ha), (H b Hb); reflexivity.
    + apply negb_true_iff in H.
      assert (Hn : forall x, In x l -> p x = false).
      { intros x Hx; destruct (p x) eqn:Hp; [|reflexivity].
        assert (existsb p l = true)
          by (apply existsb_exists; exists x; split; assumption).
        congruence. }
      rewrite (Hn a Ha), (Hn b Hb); reflexivity.
  - intros H; destruct l as [|x r]; [reflexivity|].
    destruct (p x) eqn:Hx.
    + apply orb_true_iff; left; apply forallb_forall.
      intros y Hy; rewrite <- Hx; apply H; [exact Hy | left; reflexivity].
    + apply orb_true_iff; right; apply negb_true_iff.
      destruct (existsb p (x :: r)) eqn:He; [|reflexivity].
      apply existsb_exists in He; destruct He as [y [Hy Hp]].
      rewrite <- Hx, <- Hp; apply H; [exact Hy | left; reflexivity].
Qed.

Lemma entries_at_member entries k nodes :
  In (k, nodes) entries -> NoDup (List.map fst entries) ->
  entries_at entries k = nodes.
Proof.
  induction entries as [|[a ns] r IH]; simpl; intros Hin Hnd; [contradiction|].
  inversion Hnd as [|? ? Ha Hr]; subst.
  destruct Hin as [E|Hin].
  - inversion E; subst; rewrite String.eqb_refl; reflexivity.
  - destruct (String.eqb_spec a k) as [E|E]; [|apply IH; assumption].
    subst a; exfalso; apply Ha.
    apply in_map_iff; exists (k, nodes); split; [reflexivity | exact Hin].
Qed.

Lemma entries_at_listed entries k node :
  In node (entries_at entries k) -> In (k, entries_at entries k) entries.
Proof.
  induction entries as [|[a ns] r IH]; simpl; intros Hin; [contradiction|].
  destruct (String.eqb_spec a k) as [E|E]; [subst; left; reflexivity|].
  right; apply IH; exact Hin.
Qed.

Lemma listed_node_in git raw tree node :
  In node (flat_map (listed_node git raw) tree) <->
  exists e, In e tree /\
            ToRawString git (tree_entry_id e) = Some raw /\
            GitFileModeToObjectType (tree_entry_filemode e)
            = Some (entry_type node) /\
            entry_name node = tree_entry_name e.
Proof.
  rewrite in_flat_map; split.
  - intros [e [He Hn]]; exists e; split; [exact He|].
    unfold listed_node in Hn.
    destruct (ToRawString git (tree_entry_id e)) as [r|]; [|destruct Hn].
    destruct (GitFileModeToObjectType (tree_entry_filemode e)) as [t|];
      [|destruct Hn].
    destruct (String.eqb_spec r raw) as [E|E]; [|destruct Hn].
    destruct Hn as [Hn|[]]; subst; simpl; repeat split.
  - intros [e [He [Hr [Hm Hname]]]]; exists e; split; [exact He|].
    unfold listed_node; rewrite Hr, Hm, String.eqb_refl.
    left; destruct node; simpl in *; subst; reflexivity.
Qed.

Lemma mode_is_tree mode t :
  GitFileModeToObjectType mode = Some t ->
  IsTreeObject t = Z.eqb mode GIT_FILEMODE_TREE.
Proof.
  unfold GitFileModeToObjectType.
  destruct (Z.eqb_spec mode GIT_FILEMODE_BLOB) as [E|E].
  { intros H; inversion H; subst; reflexivity. }
  destruct (Z.eqb_spec mode GIT_FILEMODE_BLOB_EXECUTABLE) as [E1|E1].
  { intros H; inversion H; subst; reflexivity. }
  destruct (Z.eqb_spec mode GIT_FILEMODE_TREE) as [E2|E2]; [|discriminate].
  intros H; inversion H; reflexivity.
Qed.

(** X23: the entries that [ReadTree] returns pass [ValidateEntries], the
    condition audited before they are returned, exactly when no two entries
    of the tree with the same raw id differ in being trees. *)
Theorem read_tree_valid_iff (cas : GitCAS) (id : string) (is_hex_id : bool)
  (entries : tree_entries_t) :
  ReadTree cas id is_hex_id = Some entries ->
  exists oid tree,
    GitObjectID (libgit2 cas) id is_hex_id = Some oid /\
    git_tree_lookup (libgit2 cas) oid = Some tree /\
    (ValidateEntries entries = true <->
     forall e1 e2,
       In e1 tree -> In e2 tree ->
       ToRawString (libgit2 cas) (tree_entry_id e1)
       = ToRawString (libgit2 cas) (tree_entry_id e2) ->
       is_tree_mode e1 = is_tree_mode e2).
Proof.
  unfold ReadTree.
  destruct (GitObjectID (libgit2 cas) id is_hex_id) as [oid|];
    [|discriminate].
  destruct (git_repository_wrap_odb (libgit2 cas)); simpl; [|discriminate].
  destruct (git_tree_lookup (libgit2 cas) oid) as [tree|] eqn:Hl;
    [|discriminate].
  destruct (git_tree_walk (flat_tree_walker (libgit2 cas)) tree [])
    as [r es] eqn:Hw.
  destruct (Z.eqb_spec r 0) as [Hr|Hr]; simpl; [|discriminate].
  intros H; inversion H; subst.
  exists oid, tree; split; [reflexivity|]; split; [exact Hl|].
  destruct (walk_lists_entries _ _ _ Hw (NoDup_nil _)) as [_ [H0 _]].
  destruct (H0 eq_refl) as [Hat [Hall Hk]]; simpl in Hat.
  rewrite Forall_forall in Hall.
  unfold ValidateEntries; rewrite forallb_forall; split.
  - intros Hv e1 e2 H1 H2 Hraw.
    destruct (Hall e1 H1) as [Hr1 Hm1]; destruct (Hall e2 H2) as [_ Hm2].
    destruct (ToRawString (libgit2 cas) (tree_entry_id e1)) as [raw|] eqn:E1;
      [|contradiction].
    destruct (GitFileModeToObjectType (tree_entry_filemode e1)) as [t1|]
      eqn:M1; [|contradiction].
    destruct (GitFileModeToObjectType (tree_entry_filemode e2)) as [t2|]
      eqn:M2; [|contradiction].
    assert (N1 : In (mkTreeEntry (tree_entry_name e1) t1)
                    (entries_at entries raw)).
    { rewrite Hat; apply listed_node_in; exists e1; repeat split; auto. }
    assert (N2 : In (mkTreeEntry (tree_entry_name e2) t2)
                    (entries_at entries raw)).
    { rewrite Hat; apply listed_node_in; exists e2; repeat split; auto. }
    pose proof (Hv _ (entries_at_listed _ _ _ N1)) as Hx; simpl in Hx.
    rewrite all_or_none in Hx; specialize (Hx _ _ N1 N2); simpl in Hx.
    unfold is_tree_mode.
    rewrite <- (mode_is_tree _ M1), <- (mode_is_tree _ M2); exact Hx.
  - intros Ht [k nodes] Hin; simpl; rewrite all_or_none; intros a b Ha Hb.
    pose proof (entries_at_member _ _ _ Hin Hk) as Hn.
    rewrite <- Hn, Hat in Ha, Hb.
    apply listed_node_in in Ha, Hb.
    destruct Ha as [e1 [H1 [R1 [M1 _]]]]; destruct Hb as [e2 [H2 [R2 [M2 _]]]].
    rewrite (mode_is_tree _ M1), (mode_is_tree _ M2).
    apply Ht; [exact H1 | exact H2 | congruence].
Qed.

(** ** The description of a user-defined rule *)

Lemma find_assign m key value k :
  json_find (Describe.assign m key value) k
  = if String.eqb key k then Some value else json_find m k.
Proof.
  induction m as [|[a v] r IH]; simpl.
  - destruct (String.eqb key k); reflexivity.
  - destruct (String.eqb_spec a key) as [E|E]; simpl.
    + subst a; destruct (String.eqb key k); reflexivity.
    + rewrite IH; destruct (String.eqb_spec a k) as [E1|E1];
        [|reflexivity].
      subst a; destruct (String.eqb_spec key k); [congruence | reflexivity].
Qed.

Lemma assign_new m key value :
  json_find m key = None ->
  Describe.assign m key value = m ++ [(key, value)].
Proof.
  induction m as [|[a v] r IH]; simpl; intros H; [reflexivity|].
  destruct (String.eqb a key); [discriminate|].
  rewrite IH; [reflexivity | exact H].
Qed.

Lemma json_find_app m1 m2 k :
  json_find (m1 ++ m2) k
  = match json_find m1 k with
    | Some v => Some v
    | None => json_find m2 k
    end.
Proof.
  induction m1 as [|[a v] r IH]; simpl; [reflexivity|].
  destruct (String.eqb a k); [reflexivity | exact IH].
Qed.

(** The fields of [ruledesc] among [fields], in the order of [fields]. *)
Lemma projection_appends (ruledesc : Json) (fields : list string) :
  NoDup fields ->
  forall base,
    (forall f, In f fields -> json_find base f = None) ->
    fold_left (fun json f =>
                 match Describe.find ruledesc f with
                 | Some value => Describe.assign json f value
                 | None => json
                 end) fields base
    = base ++ flat_map (fun f => match Describe.find ruledesc f with
                                 | Some value => [(f, value)]
                                 | None => []
                                 end) fields.
Proof.
  induction 1 as [|f fields Hf Hnd IH]; intros base Hb; simpl.
  - rewrite app_nil_r; reflexivity.
  - destruct (Describe.find ruledesc f) as [value|] eqn:E.
    + rewrite IH.
      * rewrite assign_new by (apply Hb; left; reflexivity).
        rewrite <- app_assoc; reflexivity.
      * intros g Hg; rewrite find_assign.
        destruct (String.eqb_spec f g) as [E1|E1]; [subst; contradiction|].
        apply Hb; right; exact Hg.
    + simpl; apply IH; intros g Hg; apply Hb; right; exact Hg.
Qed.

Lemma rule_fields_distinct : NoDup Describe.kRuleDescriptionFields.
Proof.
  unfold Describe.kRuleDescriptionFields.
  repeat (constructor; [simpl; intuition discriminate|]); constructor.
Qed.

(** X24: a rule is described, with exit code kExitSuccess, exactly when the
    rule file map delivered an object that has the name of the rule as a
    key; in every other case the exit code is kExitFailure and nothing is
    written to the standard output. *)
Theorem rule_described_iff (rule_file : KeyOutcome Json)
  (rule_name : Describe.EntityName) (print_json : bool) :
  (fst (Describe.DescribeUserDefinedRule rule_file rule_name print_json)
   = Describe.kExitSuccess <->
   exists m ruledesc,
     rule_file = KeyReady (JObject m) /\
     json_find m (Describe.target_name rule_name) = Some ruledesc) /\
  (fst (Describe.DescribeUserDefinedRule rule_file rule_name print_json)
   = Describe.kExitFailure ->
   snd (Describe.DescribeUserDefinedRule rule_file rule_name print_json)
   = []).
Proof.
  unfold Describe.DescribeUserDefinedRule.
  destruct rule_file as [v|msg fatal].
  - destruct v as [| | | | |m]; simpl;
      try (split; [split; [discriminate | intros [m [r [H _]]]; discriminate]
                  | reflexivity]).
    destruct (json_find m (Describe.target_name rule_name)) as [r|] eqn:E.
    + destruct print_json; simpl; (split; [|discriminate]);
        (split; [intros _; exists m, r; split; [reflexivity | exact E]
                | reflexivity]).
    + simpl; split; [|reflexivity].
      split; [discriminate|].
      intros [m' [r [H H']]]; inversion H; subst; congruence.
  - destruct fatal; simpl;
      (split; [split; [discriminate | intros [m [r [H _]]]; discriminate]
              | reflexivity]).
Qed.

Lemma rule_described_iff_witness :
  fst (Describe.DescribeUserDefinedRule (KeyReady rules_file_example)
         library_name true) = Describe.kExitSuccess.
Proof.
  apply (proj1 (@rule_described_iff (KeyReady rules_file_example)
                  library_name true)).
  exists [("library", library_rule)], library_rule.
  split; reflexivity.
Defined.

(** X25: with print_json, what is printed for a rule is one object, dumped
    with indentation 2: the key "type" with the name of the rule, followed
    by those of the ten description fields that the rule has, in the fixed
    order of kRuleDescriptionFields and with the values of the rule; no other
    key of the rule is printed. *)
Theorem rule_json_is_projection (m : list (string * Json))
  (rule_name : Describe.EntityName) (ruledesc : Json) :
  json_find m (Describe.target_name rule_name) = Some ruledesc ->
  Describe.DescribeUserDefinedRule (KeyReady (JObject m)) rule_name true
  = (Describe.kExitSuccess,
     [Describe.JsonDump
        (("type", Describe.name_json rule_name)
           :: flat_map (fun f => match Describe.find ruledesc f with
                                 | Some value => [(f, value)]
                                 | None => []
                                 end) Describe.kRuleDescriptionFields) 2]).
Proof.
  intros H; unfold Describe.DescribeUserDefinedRule; simpl Describe.find.
  cbv iota; rewrite H; unfold Describe.rule_json.
  rewrite (@projection_appends ruledesc _ rule_fields_distinct).
  - reflexivity.
  - intros f Hf; simpl in Hf.
    repeat (destruct Hf as [Hf|Hf]; [subst f; reflexivity|]).
    destruct Hf.
Qed.

Lemma rule_json_is_projection_witness :
  Describe.DescribeUserDefinedRule (KeyReady rules_file_example)
    library_name true
  = (Describe.kExitSuccess,
     [Describe.JsonDump
        [("type", Describe.name_json library_name);
         ("string_fields", JArray [JString "name"]);
         ("target_fields", JArray [JString "srcs"]);
         ("doc", JArray [JString "A library"])] 2]).
Proof.
  apply (@rule_json_is_projection [("library", library_rule)] library_name
           library_rule).
  reflexivity.
Defined.

Lemma read_tree_valid_iff_witness :
  exists oid tree,
    GitObjectID (libgit2 (toy_cas toy_tree))
      "0123456789abcdef0123456789abcdef01234567" true = Some oid /\
    git_tree_lookup (libgit2 (toy_cas toy_tree)) oid = Some tree /\
    (ValidateEntries
       [("1111111111111111111111111111111111111111",
         [mkTreeEntry "README" OT_File; mkTreeEntry "README.md" OT_File]);
        ("2222222222222222222222222222222222222222",
         [mkTreeEntry "src" OT_Tree])] = true <->
     forall e1 e2,
       In e1 tree -> In e2 tree ->
       ToRawString (libgit2 (toy_cas toy_tree)) (tree_entry_id e1)
       = ToRawString (libgit2 (toy_cas toy_tree)) (tree_entry_id e2) ->
       is_tree_mode e1 = is_tree_mode e2).
Proof.
  exact (@read_tree_valid_iff (toy_cas toy_tree)
           "0123456789abcdef0123456789abcdef01234567" true _ eq_refl).
Defined.
